(** * Huffman coding: the two pipelines of the repository

    A shallow embedding of [src/Huffman.py] and [src/Greedy_Alg.py] and the
    properties of frequency counting, greedy tree construction, code-table
    derivation, encoding and decoding.

    Conventions of the embedding:
    - a Python [int] is a [Z] (unbounded);
    - a Python [str] is a [string]; iterating over a [str] yields its
      one-character strings ([chars]).  Characters are the 256 code points
      of [ascii], the range of the frequency table of [Huffman.py]
      ([ASCII_SYMBOLS = 256]);
    - a raised exception is a value [Raise e] of the type [result];
    - a [dict] is an association list with unique keys in insertion order,
      which is the iteration order of a Python dict;
    - the [while] loop of the tree builder runs on fuel; [Unfinished] is the
      outcome of a loop that is out of fuel, and the builders supply
      [len(forest)] units, which is shown to be enough. *)

From Stdlib Require Import ZArith List String Ascii Bool Lia Permutation.
Import ListNotations.

Set Warnings "-register-all".
Local Open Scope Z_scope.

(* ================================================================== *)
(** ** Python values, exceptions and containers *)

Module Py.

Inductive exn : Type :=
| IndexError
| KeyError
| TypeError
| AttributeError.

Inductive result (A : Type) : Type :=
| Ok (a : A)
| Raise (e : exn)
| Unfinished.

Arguments Ok {A} a.
Arguments Raise {A} e.
Arguments Unfinished {A}.

Definition bind {A B : Type} (m : result A) (k : A -> result B) : result B :=
  match m with
  | Ok a => k a
  | Raise e => Raise e
  | Unfinished => Unfinished
  end.

(** [for x in xs: body], where the body may raise. *)
Fixpoint for_each {S A : Type} (xs : list A) (body : S -> A -> result S)
         (s : S) : result S :=
  match xs with
  | [] => Ok s
  | x :: xs' => bind (body s x) (for_each xs' body)
  end.

(** [range(a, b)] *)
Definition range (a b : nat) : list nat := seq a (b - a).

(** [enumerate(l)] *)
Definition enumerate {A : Type} (l : list A) : list (nat * A) :=
  combine (seq 0 (List.length l)) l.

(** The one-character strings of a [str], in order. *)
Fixpoint chars (s : string) : list string :=
  match s with
  | EmptyString => []
  | String c s' => String c EmptyString :: chars s'
  end.

(** [ord(c)]: defined on strings of length one. *)
Definition ord (c : string) : result Z :=
  match c with
  | String a EmptyString => Ok (Z.of_nat (nat_of_ascii a))
  | _ => Raise TypeError
  end.

(** [chr(i)], for the code points below 256. *)
Definition chr (i : nat) : string := String (ascii_of_nat i) EmptyString.

(** [l[i]] for a position [i] counted from the front. *)
Definition item {A : Type} (l : list A) (i : nat) : result A :=
  match nth_error l i with
  | Some x => Ok x
  | None => Raise IndexError
  end.

(** Python's index normalisation: a negative [i] counts from the end. *)
Definition position {A : Type} (l : list A) (i : Z) : result nat :=
  let n := Z.of_nat (List.length l) in
  if (0 <=? i) && (i <? n) then Ok (Z.to_nat i)
  else if (- n <=? i) && (i <? 0) then Ok (Z.to_nat (i + n))
  else Raise IndexError.

(** [l[i]] *)
Definition getitem {A : Type} (l : list A) (i : Z) : result A :=
  bind (position l i) (item l).

Fixpoint update {A : Type} (l : list A) (k : nat) (v : A) : list A :=
  match l, k with
  | [], _ => []
  | _ :: l', O => v :: l'
  | x :: l', S k' => x :: update l' k' v
  end.

(** [l[i] = v] *)
Definition setitem {A : Type} (l : list A) (i : Z) (v : A) : result (list A) :=
  bind (position l i) (fun k => Ok (update l k v)).

(** [l.pop(k)]: the removed element and the list that remains. *)
Definition pop {A : Type} (l : list A) (k : nat) : result (A * list A) :=
  match nth_error l k with
  | Some x => Ok (x, firstn k l ++ skipn (S k) l)
  | None => Raise IndexError
  end.

(** A dict from [str] to [str]. *)
Definition dict : Type := list (string * string).

Fixpoint dict_get (d : dict) (k : string) : option string :=
  match d with
  | [] => None
  | (k', v) :: d' => if String.eqb k k' then Some v else dict_get d' k
  end.

(** [d[k] = v]: an existing key keeps its place, a new one goes last. *)
Fixpoint dict_set (d : dict) (k v : string) : dict :=
  match d with
  | [] => [(k, v)]
  | (k', v') :: d' =>
      if String.eqb k k' then (k', v) :: d' else (k', v') :: dict_set d' k v
  end.

(** [d[k]] *)
Definition dict_getitem (d : dict) (k : string) : result string :=
  match dict_get d k with
  | Some v => Ok v
  | None => Raise KeyError
  end.

(** [k in d] *)
Definition dict_contains (d : dict) (k : string) : bool :=
  match dict_get d k with
  | Some _ => true
  | None => false
  end.

(** [char.isupper()] on a one-character string, as the iteration over a
    [str] yields them: among the 256 code points the uppercase letters
    are [A]-[Z] (65-90) and the capital letters 192-214 and 216-222 of
    Latin-1. *)
Definition isupper (char : string) : bool :=
  match char with
  | String a EmptyString =>
      let n := nat_of_ascii a in
      ((65 <=? n) && (n <=? 90) || (192 <=? n) && (n <=? 214)
       || (216 <=? n) && (n <=? 222))%nat
  | _ => false
  end.

End Py.

Import Py.

Declare Scope py_scope.
Delimit Scope py_scope with py.
Notation "x <- m ;; k" := (bind m (fun x => k))
  (at level 61, m at next level, right associativity) : py_scope.
Notation "' p <- m ;; k" := (bind m (fun p => k))
  (at level 61, p pattern, m at next level, right associativity) : py_scope.
Local Open Scope py_scope.

(* ================================================================== *)
(** ** [src/Huffman.py] *)

Module Huffman.

(** [class Node]: the four private fields.  [set_left] and [set_right] are
    only called on the node that [huffman] has just created, so a node is
    built with its children in place. *)
Inductive Node : Type :=
| mkNode (frequency : Z) (symbol : option string)
         (left right : option Node).

Definition get_frequency (n : Node) : Z :=
  match n with mkNode f _ _ _ => f end.

Definition get_symbol (n : Node) : option string :=
  match n with mkNode _ s _ _ => s end.

Definition get_left (n : Node) : option Node :=
  match n with mkNode _ _ l _ => l end.

Definition get_right (n : Node) : option Node :=
  match n with mkNode _ _ _ r => r end.

(** [Node.__lt__] *)
Definition lt (self other : Node) : bool :=
  get_frequency self <? get_frequency other.

Definition ASCII_SYMBOLS : nat := 256.

(** [frequencies[i] += 1] at a position counted from the front. *)
Definition increment (frequencies : list Z) (i : nat) : result (list Z) :=
  x <- item frequencies i ;; Ok (update frequencies i (x + 1)).

Definition frequency_of_symbols (message : string) : result (list Z) :=
  for_each (chars message)
    (fun frequencies char =>
       ascii_value <- ord char ;;
       increment frequencies (Z.to_nat ascii_value))
    (repeat 0 ASCII_SYMBOLS).

Definition create_forest (frequencies : list Z) : list Node :=
  fold_left
    (fun forest ascii_val =>
       if nth ascii_val frequencies 0 >? 0
       then forest ++ [mkNode (nth ascii_val frequencies 0)
                              (Some (chr ascii_val)) None None]
       else forest)
    (range 0 (List.length frequencies)) [].

Definition get_smallest (forest : list Node) : result (Node * list Node) :=
  smallest_index <-
    for_each (range 1 (List.length forest))
      (fun smallest_index i =>
         a <- item forest i ;;
         b <- item forest smallest_index ;;
         Ok (if lt a b then i else smallest_index))
      0%nat ;;
  pop forest smallest_index.

(** One iteration of the body of the [while] loop. *)
Definition merge (forest : list Node) : result (list Node) :=
  '(s1, forest1) <- get_smallest forest ;;
  '(s2, forest2) <- get_smallest forest1 ;;
  let new_node :=
    mkNode (get_frequency s1 + get_frequency s2) None (Some s1) (Some s2) in
  Ok (forest2 ++ [new_node]).

(** [while len(forest) > 1: ...] *)
Fixpoint while_loop (fuel : nat) (forest : list Node) : result (list Node) :=
  if (1 <? List.length forest)%nat then
    match fuel with
    | O => Unfinished
    | S fuel' => forest' <- merge forest ;; while_loop fuel' forest'
    end
  else Ok forest.

Definition huffman (forest : list Node) : result (option Node) :=
  if (List.length forest =? 0)%nat then Ok None
  else
    forest' <- while_loop (List.length forest) forest ;;
    root <- item forest' 0 ;;
    Ok (Some root).

(** The inner function [traverse] of [build_encoding_table]; the table it
    closes over is threaded through. *)
Fixpoint traverse_node (node : Node) (current_code : string) (table : dict)
  : dict :=
  match node with
  | mkNode _ (Some symbol) _ _ => dict_set table symbol current_code
  | mkNode _ None l r =>
      let table1 :=
        match l with
        | Some n => traverse_node n (current_code ++ "0") table
        | None => table
        end in
      match r with
      | Some n => traverse_node n (current_code ++ "1") table1
      | None => table1
      end
  end.

Definition traverse (node : option Node) (current_code : string)
           (table : dict) : dict :=
  match node with
  | None => table
  | Some n => traverse_node n current_code table
  end.

Definition build_encoding_table (root : option Node) : dict :=
  traverse root "" [].

Definition encode_with_table (message : string) (table : dict)
  : result string :=
  codes <- for_each (chars message)
             (fun codes char => code <- dict_getitem table char ;;
                                Ok (codes ++ [code]))
             [] ;;
  Ok (String.concat "" codes).

Definition build_reverse_table (table : dict) : dict :=
  fold_left (fun reverse '(symbol, code) => dict_set reverse code symbol)
            table [].

Definition decode_step (reverse_table : dict)
           (state : list string * string) (bit : string)
  : list string * string :=
  let '(decoded, current_bits) := state in
  let current_bits := (current_bits ++ bit)%string in
  match dict_get reverse_table current_bits with
  | Some symbol => (decoded ++ [symbol], ""%string)
  | None => (decoded, current_bits)
  end.

Definition decode_with_table (encoded_message : string) (reverse_table : dict)
  : string :=
  let '(decoded, _) :=
    fold_left (decode_step reverse_table) (chars encoded_message)
              ([], ""%string) in
  String.concat "" decoded.

(** [''.join([char for char in input_string if ...])] *)
Definition filter_uppercase_and_spaces (input_string : string) : string :=
  String.concat ""
    (filter (fun char => isupper char || String.eqb char " ")
            (chars input_string)).

End Huffman.

(* ================================================================== *)
(** ** [src/Greedy_Alg.py] *)

Module Greedy_Alg.

(** [from Node import Node]: the module [Node] is not among the sources.
    [Greedy_Alg.py] uses the constructor, [set_left], [set_right], the four
    getters and [<] of the class, which is the interface of the class
    [Node] of [Huffman.py]; that class stands for it here. *)
Abbreviation Node := Huffman.Node.
Abbreviation mkNode := Huffman.mkNode.
Abbreviation get_frequency := Huffman.get_frequency.
Abbreviation get_symbol := Huffman.get_symbol.
Abbreviation get_left := Huffman.get_left.
Abbreviation get_right := Huffman.get_right.

(** [ord(char) - ord("A")] *)
Definition letter_index (char : string) : result Z :=
  o <- ord char ;; a <- ord "A" ;; Ok (o - a).

(** [frequencies[i] += 1] *)
Definition increment (frequencies : list Z) (i : Z) : result (list Z) :=
  x <- getitem frequencies i ;; setitem frequencies i (x + 1).

Definition count_frequencies (input_string : string) : result (list Z) :=
  for_each (chars input_string)
    (fun frequencies char =>
       if String.eqb char " " then increment frequencies 26
       else index <- letter_index char ;; increment frequencies index)
    (repeat 0 27%nat).

Definition initialize_forest (frequencies : list Z) : list Node :=
  fold_left
    (fun forest '(i, freq) =>
       if freq >? 0
       then let symbol := if (i =? 26)%nat then " "%string
                          else chr (i + nat_of_ascii "A") in
            forest ++ [mkNode freq (Some symbol) None None]
       else forest)
    (enumerate frequencies) [].

Definition get_smallest (forest : list Node) : result (Node * list Node) :=
  smallest_index <-
    for_each (range 1 (List.length forest))
      (fun smallest_index i =>
         a <- item forest i ;;
         b <- item forest smallest_index ;;
         Ok (if Huffman.lt a b then i else smallest_index))
      0%nat ;;
  pop forest smallest_index.

(** One iteration of the body of the [while] loop. *)
Definition merge (forest : list Node) : result (list Node) :=
  '(s1, forest1) <- get_smallest forest ;;
  '(s2, forest2) <- get_smallest forest1 ;;
  let new_node :=
    mkNode (get_frequency s1 + get_frequency s2) None (Some s1) (Some s2) in
  Ok (forest2 ++ [new_node]).

(** [while len(forest) > 1: ...] *)
Fixpoint while_loop (fuel : nat) (forest : list Node) : result (list Node) :=
  if (1 <? List.length forest)%nat then
    match fuel with
    | O => Unfinished
    | S fuel' => forest' <- merge forest ;; while_loop fuel' forest'
    end
  else Ok forest.

Definition build_huffman_tree (frequencies : list Z) : result (option Node) :=
  let forest := initialize_forest frequencies in
  if (List.length forest =? 0)%nat then Ok None
  else
    forest' <- while_loop (List.length forest) forest ;;
    root <- item forest' 0 ;;
    Ok (Some root).

(** [26 if symbol == " " else ord(symbol) - ord("A")] *)
Definition table_index (symbol : string) : result Z :=
  if String.eqb symbol " " then Ok 26 else letter_index symbol.

(** The inner function [traverse] of [build_encoding_table]; the table it
    closes over is threaded through. *)
Fixpoint traverse_node (node : Node) (code : string) (table : list string)
  : result (list string) :=
  match node with
  | mkNode _ (Some symbol) _ _ =>
      index <- table_index symbol ;; setitem table index code
  | mkNode _ None l r =>
      table1 <- match l with
                | Some n => traverse_node n (code ++ "0") table
                | None => Ok table
                end ;;
      match r with
      | Some n => traverse_node n (code ++ "1") table1
      | None => Ok table1
      end
  end.

Definition traverse (node : option Node) (code : string) (table : list string)
  : result (list string) :=
  match node with
  | None => Ok table
  | Some n => traverse_node n code table
  end.

Definition build_encoding_table (huffman_tree_root : option Node)
  : result (list string) :=
  traverse huffman_tree_root "" (repeat ""%string 27%nat).

(** [build_encoding_table[index]]: inside [encode] the name is the
    module-level function, and a function has no [__getitem__]. *)
Definition function_getitem (index : Z) : result string := Raise TypeError.

Definition encode (input_string : string) (encoding_table : list string)
  : result string :=
  encoded <-
    for_each (chars input_string)
      (fun encoded char =>
         if String.eqb char " "
         then code <- getitem encoding_table 26 ;; Ok (encoded ++ [code])
         else index <- letter_index char ;;
              code <- function_getitem index ;;
              Ok (encoded ++ [code]))
      [] ;;
  Ok (String.concat "" encoded).

(** What [decode] collects: [current.get_symbol] is the bound method, not
    the string a call of it would return. *)
Inductive object : Type :=
| Str (s : string)
| BoundMethod (self : Node).

(** [[""].join(items)]: every item has to be a [str]. *)
Definition join (items : list object) : result string :=
  for_each items
    (fun acc x => match x with
                  | Str s => Ok (acc ++ s)%string
                  | BoundMethod _ => Raise TypeError
                  end)
    ""%string.

(** [current.get_left()] and the like, where [current] may be [None]. *)
Definition call {A : Type} (current : option Node) (method : Node -> A)
  : result A :=
  match current with
  | Some n => Ok (method n)
  | None => Raise AttributeError
  end.

Definition decode_step (huffman_root : option Node)
           (state : list object * option Node) (bit : string)
  : result (list object * option Node) :=
  let '(decoded, current) := state in
  current <- (if String.eqb bit "0" then call current get_left
              else if String.eqb bit "1" then call current get_right
              else Ok current) ;;
  symbol <- call current get_symbol ;;
  match symbol, current with
  | Some _, Some n => Ok (decoded ++ [BoundMethod n], huffman_root)
  | _, _ => Ok (decoded, current)
  end.

Definition decode (encoded_string : string) (huffman_root : option Node)
  : result string :=
  '(decoded, _) <- for_each (chars encoded_string) (decode_step huffman_root)
                     ([], huffman_root) ;;
  join decoded.

End Greedy_Alg.

(* ================================================================== *)
(** ** Vocabulary of the properties *)

Import Huffman.

(** [p] is a prefix of [s]. *)
Definition is_prefix (p s : string) : Prop := exists q, s = (p ++ q)%string.

(** Neither bitstring is a prefix of the other. *)
Definition incomparable (a b : string) : Prop :=
  ~ is_prefix a b /\ ~ is_prefix b a.

(** The leaves that [traverse] reaches from [node], in the order it visits
    them, each with the bits accumulated on the way. *)
Fixpoint leaf_codes (node : Node) (code : string) : list (string * string) :=
  match node with
  | mkNode _ (Some symbol) _ _ => [(symbol, code)]
  | mkNode _ None l r =>
      (match l with Some n => leaf_codes n (code ++ "0") | None => [] end)
      ++ (match r with Some n => leaf_codes n (code ++ "1") | None => [] end)
  end.

(** The numbers of leaves and of internal nodes that the traversal
    meets. *)
Fixpoint count_leaves (n : Node) : nat :=
  match n with
  | mkNode _ (Some _) _ _ => 1
  | mkNode _ None l r =>
      (match l with Some a => count_leaves a | None => 0 end)
      + (match r with Some b => count_leaves b | None => 0 end)
  end.

Fixpoint count_internal (n : Node) : nat :=
  match n with
  | mkNode _ (Some _) _ _ => 0
  | mkNode _ None l r =>
      1 + (match l with Some a => count_internal a | None => 0 end)
        + (match r with Some b => count_internal b | None => 0 end)
  end.

(** A leaf carries a symbol and no child; an internal node carries no
    symbol and exactly two children. *)
Fixpoint two_children (n : Node) : bool :=
  match n with
  | mkNode _ (Some _) None None => true
  | mkNode _ None (Some a) (Some b) => two_children a && two_children b
  | _ => false
  end.

(** The sum of the frequencies stored at the leaves. *)
Fixpoint leaf_frequencies (n : Node) : Z :=
  match n with
  | mkNode f (Some _) _ _ => f
  | mkNode _ None l r =>
      (match l with Some a => leaf_frequencies a | None => 0 end)
      + (match r with Some b => leaf_frequencies b | None => 0 end)
  end.

(** Every internal node stores the sum of the frequencies of its two
    children. *)
Fixpoint sums_children (n : Node) : bool :=
  match n with
  | mkNode _ (Some _) _ _ => true
  | mkNode f None (Some a) (Some b) =>
      (f =? get_frequency a + get_frequency b)
      && sums_children a && sums_children b
  | _ => false
  end.

(** The number of symbols of positive count. *)
Definition positive_count (frequencies : list Z) : nat :=
  List.length (filter (fun f => f >? 0) frequencies).

(** The sum of the positive counts. *)
Definition positive_total (frequencies : list Z) : Z :=
  fold_right Z.add 0 (filter (fun f => f >? 0) frequencies).

(** [x] sits at index [k] of [forest], no node of [forest] has a smaller
    frequency, and every node before index [k] has a larger one. *)
Definition first_minimum (forest : list Node) (k : nat) (x : Node) : Prop :=
  nth_error forest k = Some x
  /\ (forall j y, nth_error forest j = Some y ->
                  get_frequency x <= get_frequency y)
  /\ (forall j y, (j < k)%nat -> nth_error forest j = Some y ->
                  get_frequency x < get_frequency y).

(** The node that one iteration of the loop builds from the two nodes it
    has removed. *)
Definition merged (s1 s2 : Node) : Node :=
  mkNode (get_frequency s1 + get_frequency s2) None (Some s1) (Some s2).

(** The leaf that the forest starts with for a symbol and its count. *)
Definition leaf (symbol : string) (frequency : Z) : Node :=
  mkNode frequency (Some symbol) None None.

(** Leaves, internal nodes and leaf frequencies, summed over a forest. *)
Definition forest_leaves (forest : list Node) : nat :=
  list_sum (map count_leaves forest).

Definition forest_internal (forest : list Node) : nat :=
  list_sum (map count_internal forest).

Definition forest_frequency (forest : list Node) : Z :=
  fold_right Z.add 0 (map leaf_frequencies forest).

(** What construction maintains of every tree of the forest. *)
Definition well_built (n : Node) : Prop :=
  two_children n = true /\ sums_children n = true
  /\ get_frequency n = leaf_frequencies n.

(** What construction maintains of the forest: [L] leaves and a total
    frequency [T] over all its trees, and one internal node less than
    leaves in every tree. *)
Record forest_invariant (L : nat) (T : Z) (forest : list Node) : Prop :=
  { inv_well_built : Forall well_built forest;
    inv_leaves : forest_leaves forest = L;
    inv_internal : (forest_internal forest + List.length forest)%nat = L;
    inv_frequency : forest_frequency forest = T }.

(** The entries of positive count with their indices, and the forest of
    leaves they give when index [i] stands for the symbol [symbol_of i]. *)
Definition positive_entries (frequencies : list Z) : list (nat * Z) :=
  filter (fun '(_, f) => f >? 0) (enumerate frequencies).

Definition leaves_of (symbol_of : nat -> string) (entries : list (nat * Z))
  : list Node :=
  map (fun '(i, f) => leaf (symbol_of i) f) entries.

(** The symbol of index [i] in the 27-entry table of [Greedy_Alg.py]. *)
Definition greedy_symbol (i : nat) : string :=
  if (i =? 26)%nat then " "%string else chr (i + nat_of_ascii "A").

(** [table[symbol] = code] for the pairs of [codes], in order. *)
Definition assign (table : dict) (codes : list (string * string)) : dict :=
  fold_left (fun t '(symbol, code) => dict_set t symbol code) codes table.

(** The keys of a dict are distinct. *)
Definition unique_keys (d : dict) : Prop := NoDup (map fst d).

(** A code table is a prefix code: no code is empty and the codes of two
    symbols are never a prefix of one another. *)
Definition prefix_code (table : dict) : Prop :=
  (forall a ca, dict_get table a = Some ca -> ca <> ""%string)
  /\ (forall a b ca cb,
        a <> b -> dict_get table a = Some ca -> dict_get table b = Some cb ->
        incomparable ca cb).

(** The entry of a symbol in the 27-entry list of [Greedy_Alg.py]:
    [table[index]] at the index that [traverse] computes for the symbol. *)
Definition greedy_code (table : list string) (symbol : string)
  : result string :=
  index <- Greedy_Alg.table_index symbol ;; getitem table index.

(** The symbols of the 27-entry table: the space and the capital letters. *)
Definition in_alphabet (symbol : string) : bool :=
  existsb (fun i => String.eqb symbol (greedy_symbol i)) (seq 0 27).

(** The symbols at the leaves that [traverse] reaches. *)
Definition symbols_of (root : Node) : list string :=
  map fst (leaf_codes root "").

(** [table[index(symbol)] = code] for the pairs of [codes], in order, on
    the list of [Greedy_Alg.py]. *)
Definition greedy_assign (table : list string)
           (codes : list (string * string)) : result (list string) :=
  for_each codes
    (fun t '(symbol, code) =>
       index <- Greedy_Alg.table_index symbol ;; setitem t index code)
    table.

(** The symbols at the leaves of all the trees of a forest. *)
Definition forest_symbols (forest : list Node) : list string :=
  flat_map symbols_of forest.

(** A string of the characters ["0"] and ["1"]. *)
Definition is_bitstring (s : string) : bool :=
  forallb (fun bit => String.eqb bit "0" || String.eqb bit "1") (chars s).

(** The frequency stored at the root of a tree is the sum of the
    frequencies of its leaves, and every internal node stores the sum of
    its children. *)
Definition conserves (n : Node) : bool :=
  (get_frequency n =? leaf_frequencies n) && sums_children n.

(** How often a one-character string occurs in a message. *)
Definition occurrences (char message : string) : Z :=
  Z.of_nat (count_occ string_dec (chars message) char).

(** The sum of a list of counts. *)
Definition total (l : list Z) : Z := fold_right Z.add 0 l.

(** The entry of the 27 counts that [count_frequencies] increments for a
    character: 26 for the space, [ord(char) - ord("A")] for a character
    from ["A"] on, and that index counted from the end, as Python does
    with a negative index, for a character before ["A"]. *)
Definition slot (char : string) : nat :=
  match char with
  | String a EmptyString =>
      let n := nat_of_ascii a in
      if (n =? 32)%nat then 26%nat
      else if (65 <=? n)%nat then (n - 65)%nat else (n + 27 - 65)%nat
  | _ => 0%nat
  end.

(** The characters that [count_frequencies] can count: the space and the
    code points 38 to 91, whose index is between -27 and 26. *)
Definition countable (char : string) : bool :=
  match char with
  | String a EmptyString =>
      let n := nat_of_ascii a in
      ((n =? 32) || (38 <=? n) && (n <=? 91))%nat
  | _ => false
  end.

(** The sum of the frequencies stored at the roots of a forest. *)
Definition forest_root_frequency (forest : list Node) : Z :=
  total (map get_frequency forest).

(** At every internal node with two children, the left child is not
    heavier than the right one. *)
Fixpoint lighter_left (n : Node) : bool :=
  match n with
  | mkNode _ _ (Some a) (Some b) =>
      (get_frequency a <=? get_frequency b)
      && lighter_left a && lighter_left b
  | mkNode _ _ (Some a) None => lighter_left a
  | mkNode _ _ None (Some b) => lighter_left b
  | mkNode _ _ None None => true
  end.

(** The code of the last pair for a symbol. *)
Fixpoint last_code (codes : list (string * string)) (symbol : string)
  : option string :=
  match codes with
  | [] => None
  | (s, c) :: codes' =>
      match last_code codes' symbol with
      | Some c' => Some c'
      | None => if String.eqb symbol s then Some c else None
      end
  end.

(** The messages and trees of the examples. *)
Definition hello_world : string := "HELLO WORLD".

Definition tree_of (message : string) : result (option Node) :=
  frequencies <- frequency_of_symbols message ;;
  huffman (create_forest frequencies).

Definition greedy_tree_of (message : string) : result (option Node) :=
  frequencies <- Greedy_Alg.count_frequencies message ;;
  Greedy_Alg.build_huffman_tree frequencies.

(** The steps of the [__main__] block of [Huffman.py] on a message that
    is already filtered: count, build, derive the table, encode, decode. *)
Definition round_trip (message : string) : result string :=
  frequencies <- frequency_of_symbols message ;;
  tree_root <- huffman (create_forest frequencies) ;;
  let encoding_table := build_encoding_table tree_root in
  encoded_message <- encode_with_table message encoding_table ;;
  let reverse_table := build_reverse_table encoding_table in
  Ok (decode_with_table encoded_message reverse_table).

(** The same steps of the [__main__] block of [Greedy_Alg.py]. *)
Definition greedy_round_trip (message : string) : result string :=
  frequencies <- Greedy_Alg.count_frequencies message ;;
  root <- Greedy_Alg.build_huffman_tree frequencies ;;
  table <- Greedy_Alg.build_encoding_table root ;;
  encoded <- Greedy_Alg.encode message table ;;
  Greedy_Alg.decode encoded root.

(** The tree of a builder that has returned one. *)
Definition unwrap (r : result (option Node)) : Node :=
  match r with
  | Ok (Some root) => root
  | _ => leaf "" 0
  end.

Definition hello_tree : Node := Eval vm_compute in unwrap (tree_of hello_world).

Definition greedy_hello_tree : Node :=
  Eval vm_compute in unwrap (greedy_tree_of hello_world).

Definition abc_tree : Node := Eval vm_compute in unwrap (tree_of "CABCBC").

Definition greedy_abc_tree : Node :=
  Eval vm_compute in unwrap (greedy_tree_of "CABCBC").

(** A small list of counts and the trees built from it. *)
Definition small_counts : list Z := [0; 2; 0; 1; 3].

Definition small_tree : Node :=
  Eval vm_compute in unwrap (huffman (create_forest small_counts)).

Definition greedy_small_tree : Node :=
  Eval vm_compute in unwrap (Greedy_Alg.build_huffman_tree small_counts).

Definition greedy_small_table : list string :=
  Eval vm_compute in
    match Greedy_Alg.build_encoding_table (Some greedy_small_tree) with
    | Ok table => table
    | _ => []
    end.

(* ================================================================== *)
(** ** Strings and prefixes *)

Section Strings.

Local Open Scope string_scope.

Lemma append_nil_r (s : string) : s ++ "" = s.
Proof. induction s as [|c s IH]; simpl; congruence. Qed.

Lemma append_assoc (a b c : string) : (a ++ b) ++ c = a ++ (b ++ c).
Proof. induction a as [|x a IH]; simpl; congruence. Qed.

Lemma append_cancel_l (a b c : string) : a ++ b = a ++ c -> b = c.
Proof.
  induction a as [|x a IH]; simpl; intros H; [exact H|].
  injection H as H. auto.
Qed.

Lemma append_eq_nil (a b : string) : a ++ b = "" -> a = "" /\ b = "".
Proof. destruct a; simpl; intros H; [auto | discriminate]. Qed.

Lemma is_prefix_refl (s : string) : is_prefix s s.
Proof. exists "". now rewrite append_nil_r. Qed.

Lemma is_prefix_nil (s : string) : is_prefix "" s.
Proof. now exists s. Qed.

Lemma is_prefix_append (a p s : string) :
  is_prefix (a ++ p) (a ++ s) <-> is_prefix p s.
Proof.
  split; intros [q Hq]; exists q.
  - rewrite append_assoc in Hq. now apply append_cancel_l in Hq.
  - now rewrite append_assoc, Hq.
Qed.

Lemma is_prefix_trans (a b c : string) :
  is_prefix a b -> is_prefix b c -> is_prefix a c.
Proof.
  intros [q ->] [r ->]. exists (q ++ r). apply append_assoc.
Qed.

(** Two prefixes of one string are comparable. *)
Lemma is_prefix_comparable (a b s : string) :
  is_prefix a s -> is_prefix b s -> is_prefix a b \/ is_prefix b a.
Proof.
  revert b s. induction a as [|x a IH]; intros b s Ha Hb.
  - left. apply is_prefix_nil.
  - destruct b as [|y b]; [right; apply is_prefix_nil|].
    destruct Ha as [q Hq], Hb as [r Hr]. simpl in Hq, Hr.
    destruct s as [|z s]; [discriminate|].
    injection Hq as <- Hq. injection Hr as <- Hr.
    destruct (IH b s) as [[u Hu]|[u Hu]];
      [now exists q | now exists r | left | right];
      exists u; simpl; now rewrite Hu.
Qed.

Lemma incomparable_sym (a b : string) : incomparable a b -> incomparable b a.
Proof. unfold incomparable. tauto. Qed.

(** Extending two incomparable strings keeps them incomparable. *)
Lemma incomparable_extend (a b u v : string) :
  incomparable a b -> incomparable (a ++ u) (b ++ v).
Proof.
  intros [Hab Hba]. split; intros H.
  - destruct (is_prefix_comparable a b (b ++ v)) as [H1|H1]; try tauto.
    + eapply is_prefix_trans; [|exact H]. now exists u.
    + now exists v.
  - destruct (is_prefix_comparable a b (a ++ u)) as [H1|H1]; try tauto.
    + now exists u.
    + eapply is_prefix_trans; [|exact H]. now exists v.
Qed.

Lemma incomparable_branches (code : string) :
  incomparable (code ++ "0") (code ++ "1").
Proof.
  split; intros H; apply is_prefix_append in H;
    destruct H as [q Hq]; simpl in Hq; discriminate Hq.
Qed.

Lemma chars_append (a b : string) : chars (a ++ b) = (chars a ++ chars b)%list.
Proof. induction a as [|x a IH]; simpl; congruence. Qed.

Lemma concat_chars (s : string) : String.concat "" (chars s) = s.
Proof.
  induction s as [|c s IH]; [reflexivity|].
  simpl. destruct (chars s) eqn:E.
  - destruct s; [reflexivity | discriminate].
  - simpl in *. now rewrite IH.
Qed.

Lemma concat_nil_cons (x : string) (l : list string) :
  String.concat "" (x :: l) = x ++ String.concat "" l.
Proof.
  destruct l; simpl; [now rewrite append_nil_r | reflexivity].
Qed.

Lemma concat_nil_app (l1 l2 : list string) :
  String.concat "" (l1 ++ l2)%list
  = String.concat "" l1 ++ String.concat "" l2.
Proof.
  induction l1 as [|x l1 IH]; [reflexivity|].
  rewrite <- app_comm_cons, !concat_nil_cons, IH. now rewrite append_assoc.
Qed.

End Strings.

(* ================================================================== *)
(** ** [get_smallest] *)

Section GetSmallest.

Variable forest : list Node.

Let body (smallest_index i : nat) : result nat :=
  a <- item forest i ;;
  b <- item forest smallest_index ;;
  Ok (if lt a b then i else smallest_index).

(** The scan of the indices after [pre] keeps the first minimum. *)
Lemma scan_first_minimum (rest pre : list Node) (k : nat) (x : Node) :
  forest = pre ++ rest ->
  first_minimum pre k x ->
  exists k' x',
    for_each (seq (List.length pre) (List.length rest)) body k = Ok k'
    /\ first_minimum forest k' x'.
Proof.
  revert pre k x.
  induction rest as [|y rest IH]; intros pre k x Hf Hmin.
  - exists k, x. rewrite app_nil_r in Hf. subst pre. now split.
  - destruct Hmin as (Hk & Hle & Hlt).
    assert (Hklt : (k < List.length pre)%nat)
      by (apply nth_error_Some; congruence).
    assert (Hy : item forest (List.length pre) = Ok y).
    { unfold item. rewrite Hf, nth_error_app2, Nat.sub_diag by lia.
      reflexivity. }
    assert (Hx : item forest k = Ok x).
    { unfold item. rewrite Hf, nth_error_app1, Hk by lia. reflexivity. }
    simpl. unfold body at 1. rewrite Hy, Hx. simpl.
    set (k1 := if lt y x then List.length pre else k).
    set (x1 := if lt y x then y else x).
    assert (Hmin1 : first_minimum (pre ++ [y]) k1 x1).
    { unfold k1, x1, lt. destruct (Z.ltb_spec (get_frequency y)
                                              (get_frequency x)) as [Hc|Hc].
      - split; [|split].
        + rewrite nth_error_app2, Nat.sub_diag by lia. reflexivity.
        + intros j z Hj. rewrite nth_error_app in Hj.
          destruct (Nat.ltb_spec j (List.length pre)).
          * specialize (Hle _ _ Hj). lia.
          * destruct (j - List.length pre)%nat as [|[|]];
              simpl in Hj; try discriminate. injection Hj as <-. lia.
        + intros j z Hjk Hj. rewrite nth_error_app1 in Hj by lia.
          specialize (Hle _ _ Hj). lia.
      - split; [|split].
        + rewrite nth_error_app1 by lia. exact Hk.
        + intros j z Hj. rewrite nth_error_app in Hj.
          destruct (Nat.ltb_spec j (List.length pre)).
          * eauto.
          * destruct (j - List.length pre)%nat as [|[|]];
              simpl in Hj; try discriminate. injection Hj as <-. lia.
        + intros j z Hjk Hj. rewrite nth_error_app1 in Hj by lia. eauto. }
    destruct (IH (pre ++ [y]) k1 x1) as (k' & x' & Hrun & Hres); auto.
    { now rewrite <- app_assoc. }
    exists k', x'. split; [|exact Hres].
    rewrite length_app, Nat.add_1_r in Hrun. exact Hrun.
Qed.

End GetSmallest.

(** [get_smallest] pops the first node of minimal frequency. *)
Lemma get_smallest_pop (forest : list Node) :
  forest <> [] ->
  exists k x,
    first_minimum forest k x
    /\ get_smallest forest
       = Ok (x, firstn k forest ++ skipn (S k) forest).
Proof.
  destruct forest as [|x0 rest]; [congruence|]. intros _.
  destruct (scan_first_minimum (x0 :: rest) rest [x0] 0%nat x0)
    as (k & x & Hrun & Hmin); [reflexivity| |].
  { split; [reflexivity|split]; [|intros; lia].
    intros [|[|]] y Hy; simpl in Hy; try discriminate.
    injection Hy as <-. lia. }
  pose proof Hmin as (Hk & _).
  exists k, x. split; [exact Hmin|].
  unfold get_smallest, range.
  replace (List.length (x0 :: rest) - 1)%nat with (List.length rest)
    by (simpl; lia).
  simpl List.length in Hrun. rewrite Hrun. simpl bind.
  unfold pop. now rewrite Hk.
Qed.

Lemma get_smallest_split (forest : list Node) :
  forest <> [] ->
  exists k x l1 l2,
    forest = l1 ++ x :: l2 /\ List.length l1 = k
    /\ first_minimum forest k x
    /\ get_smallest forest = Ok (x, l1 ++ l2).
Proof.
  intros Hne. destruct (get_smallest_pop forest Hne) as (k & x & Hmin & Hget).
  pose proof Hmin as (Hk & _).
  exists k, x, (firstn k forest), (skipn (S k) forest).
  split; [|split; [|split; [exact Hmin | exact Hget]]].
  - symmetry. now apply firstn_skipn_middle.
  - rewrite length_firstn. apply Nat.min_l.
    assert (k < List.length forest)%nat
      by (apply nth_error_Some; congruence). lia.
Qed.

Lemma greedy_get_smallest_same (forest : list Node) :
  Greedy_Alg.get_smallest forest = get_smallest forest.
Proof. reflexivity. Qed.

(* ================================================================== *)
(** ** Tree construction *)

Lemma list_sum_permutation (l l' : list nat) :
  Permutation l l' -> list_sum l = list_sum l'.
Proof. induction 1; simpl; lia. Qed.

Lemma sum_permutation (l l' : list Z) :
  Permutation l l' -> fold_right Z.add 0 l = fold_right Z.add 0 l'.
Proof. induction 1; simpl; lia. Qed.

Lemma forest_leaves_permutation (f f' : list Node) :
  Permutation f f' -> forest_leaves f = forest_leaves f'.
Proof.
  intros H. apply list_sum_permutation. now apply Permutation_map.
Qed.

Lemma forest_internal_permutation (f f' : list Node) :
  Permutation f f' -> forest_internal f = forest_internal f'.
Proof.
  intros H. apply list_sum_permutation. now apply Permutation_map.
Qed.

Lemma forest_frequency_permutation (f f' : list Node) :
  Permutation f f' -> forest_frequency f = forest_frequency f'.
Proof.
  intros H. apply sum_permutation. now apply Permutation_map.
Qed.

Lemma well_built_merged (s1 s2 : Node) :
  well_built s1 -> well_built s2 -> well_built (merged s1 s2).
Proof.
  intros (Ha1 & Ha2 & Ha3) (Hb1 & Hb2 & Hb3). unfold well_built, merged.
  simpl. rewrite Ha1, Ha2, Hb1, Hb2, Z.eqb_refl, <- Ha3, <- Hb3. auto.
Qed.

(** One iteration removes the first minimum twice and appends the merged
    node. *)
Lemma merge_split (forest : list Node) :
  (2 <= List.length forest)%nat ->
  exists s1 forest1 s2 forest2 k1 k2,
    get_smallest forest = Ok (s1, forest1)
    /\ first_minimum forest k1 s1
    /\ get_smallest forest1 = Ok (s2, forest2)
    /\ first_minimum forest1 k2 s2
    /\ Permutation forest (s1 :: s2 :: forest2)
    /\ merge forest = Ok (forest2 ++ [merged s1 s2]).
Proof.
  intros Hlen.
  destruct (get_smallest_split forest)
    as (k1 & s1 & a1 & a2 & Hf & _ & Hmin1 & Hget1).
  { intros ->. simpl in Hlen. lia. }
  destruct (get_smallest_split (a1 ++ a2))
    as (k2 & s2 & b1 & b2 & Hf1 & _ & Hmin2 & Hget2).
  { intros E. apply (f_equal (@List.length Node)) in E, Hf.
    rewrite length_app in E, Hf. simpl in E, Hf. lia. }
  exists s1, (a1 ++ a2), s2, (b1 ++ b2), k1, k2.
  repeat (split; [assumption|]). split.
  - rewrite Hf. rewrite <- Permutation_middle. constructor.
    rewrite Hf1. now rewrite <- Permutation_middle.
  - unfold merge. rewrite Hget1. simpl. rewrite Hget2. reflexivity.
Qed.

Lemma merge_invariant (L : nat) (T : Z) (forest : list Node) :
  forest_invariant L T forest ->
  (2 <= List.length forest)%nat ->
  exists forest',
    merge forest = Ok forest'
    /\ forest_invariant L T forest'
    /\ S (List.length forest') = List.length forest.
Proof.
  intros [Hwb Hl Hi Hf] Hlen.
  destruct (merge_split forest Hlen)
    as (s1 & f1 & s2 & f2 & k1 & k2 & _ & _ & _ & _ & Hperm & Hmerge).
  exists (f2 ++ [merged s1 s2]). split; [exact Hmerge|].
  assert (Hperm' : Permutation (f2 ++ [merged s1 s2]) (merged s1 s2 :: f2))
    by (symmetry; apply Permutation_cons_append).
  pose proof (Permutation_length Hperm) as Hlen1.
  pose proof (Permutation_length Hperm') as Hlen2. simpl in Hlen1, Hlen2.
  assert (Hall : Forall well_built (s1 :: s2 :: f2))
    by (eapply Permutation_Forall; eassumption).
  apply Forall_cons_iff in Hall as [Hs1 Hall1].
  apply Forall_cons_iff in Hall1 as [Hs2 Hall2].
  split; [|lia]. split.
  - eapply Permutation_Forall; [symmetry; exact Hperm'|].
    constructor; [now apply well_built_merged | assumption].
  - rewrite (forest_leaves_permutation _ _ Hperm').
    rewrite (forest_leaves_permutation _ _ Hperm) in Hl.
    unfold forest_leaves in *. simpl in *. lia.
  - rewrite (forest_internal_permutation _ _ Hperm'), Hlen2.
    rewrite (forest_internal_permutation _ _ Hperm), Hlen1 in Hi.
    unfold forest_internal in *. simpl in *. lia.
  - rewrite (forest_frequency_permutation _ _ Hperm').
    rewrite (forest_frequency_permutation _ _ Hperm) in Hf.
    unfold forest_frequency in *. simpl in *. lia.
Qed.

(** The loop ends with one tree, on any fuel of at least [len(forest) - 1]. *)
Lemma while_loop_invariant (L : nat) (T : Z) (fuel : nat) :
  forall forest,
    forest_invariant L T forest ->
    (1 <= List.length forest <= S fuel)%nat ->
    exists root,
      while_loop fuel forest = Ok [root] /\ forest_invariant L T [root].
Proof.
  induction fuel as [|fuel IH]; intros forest Hinv Hlen.
  - destruct forest as [|root [|]]; simpl in Hlen; try lia.
    exists root. now split.
  - destruct (Nat.ltb_spec 1 (List.length forest)) as [Hgt|Hle].
    + destruct (merge_invariant L T forest Hinv) as (f' & Hm & Hinv' & Hl');
        [lia|].
      destruct (IH f' Hinv') as (root & Hrun & Hroot); [lia|].
      exists root. split; [|exact Hroot].
      simpl. apply Nat.ltb_lt in Hgt. rewrite Hgt, Hm. exact Hrun.
    + destruct forest as [|root [|]]; simpl in Hlen, Hle; try lia.
      exists root. now split.
Qed.

(** [huffman] on a forest that satisfies the invariant. *)
Lemma huffman_invariant (L : nat) (T : Z) (forest : list Node) :
  forest <> [] ->
  forest_invariant L T forest ->
  exists root,
    huffman forest = Ok (Some root)
    /\ well_built root
    /\ count_leaves root = L
    /\ S (count_internal root) = L
    /\ leaf_frequencies root = T.
Proof.
  intros Hne Hinv.
  destruct (while_loop_invariant L T (List.length forest) forest Hinv)
    as (root & Hrun & [Hwb Hl Hi Hf]).
  { destruct forest; [congruence | simpl; lia]. }
  exists root. split; [|split; [|split; [|split]]].
  - unfold huffman. destruct forest; [congruence|].
    simpl Nat.eqb. cbv iota. rewrite Hrun. reflexivity.
  - now inversion Hwb.
  - unfold forest_leaves in Hl. simpl in Hl. lia.
  - unfold forest_internal in Hi. simpl in Hi. lia.
  - unfold forest_frequency in Hf. simpl in Hf. lia.
Qed.

(** *** The initial forest *)

Lemma create_forest_from (frequencies todo done : list Z)
      (acc : list Node) :
  frequencies = done ++ todo ->
  fold_left
    (fun forest ascii_val =>
       if nth ascii_val frequencies 0 >? 0
       then forest ++ [mkNode (nth ascii_val frequencies 0)
                              (Some (chr ascii_val)) None None]
       else forest)
    (seq (List.length done) (List.length todo)) acc
  = acc ++ leaves_of chr
             (filter (fun '(_, f) => f >? 0)
                     (combine (seq (List.length done) (List.length todo))
                              todo)).
Proof.
  revert done acc.
  induction todo as [|x todo IH]; intros done acc Hsplit.
  - simpl. now rewrite app_nil_r.
  - simpl.
    assert (Hx : nth (List.length done) frequencies 0 = x).
    { rewrite Hsplit, app_nth2, Nat.sub_diag by lia. reflexivity. }
    rewrite Hx.
    specialize (IH (done ++ [x])). rewrite length_app, Nat.add_1_r in IH.
    rewrite IH by (now rewrite <- app_assoc).
    destruct (x >? 0); simpl; [now rewrite <- app_assoc | reflexivity].
Qed.

Lemma create_forest_leaves (frequencies : list Z) :
  create_forest frequencies = leaves_of chr (positive_entries frequencies).
Proof.
  unfold create_forest, range. rewrite Nat.sub_0_r.
  apply (create_forest_from frequencies frequencies [] []). reflexivity.
Qed.

Lemma initialize_forest_from (todo : list (nat * Z)) (acc : list Node) :
  fold_left
    (fun forest '(i, freq) =>
       if freq >? 0
       then let symbol := if (i =? 26)%nat then " "%string
                          else chr (i + nat_of_ascii "A") in
            forest ++ [mkNode freq (Some symbol) None None]
       else forest)
    todo acc
  = acc ++ leaves_of greedy_symbol (filter (fun '(_, f) => f >? 0) todo).
Proof.
  revert acc. induction todo as [|[i x] todo IH]; intros acc.
  - simpl. now rewrite app_nil_r.
  - simpl. rewrite IH.
    destruct (x >? 0); simpl; [now rewrite <- app_assoc | reflexivity].
Qed.

Lemma initialize_forest_leaves (frequencies : list Z) :
  Greedy_Alg.initialize_forest frequencies
  = leaves_of greedy_symbol (positive_entries frequencies).
Proof. apply (initialize_forest_from (enumerate frequencies) []). Qed.

Lemma positive_entries_counts (frequencies : list Z) :
  map snd (positive_entries frequencies)
  = filter (fun f => f >? 0) frequencies.
Proof.
  unfold positive_entries, enumerate.
  generalize 0%nat as start.
  induction frequencies as [|x l IH]; intros start; [reflexivity|].
  simpl. destruct (x >? 0); simpl; now rewrite IH.
Qed.

Lemma leaves_of_invariant (symbol_of : nat -> string)
      (entries : list (nat * Z)) :
  forest_invariant (List.length entries)
                   (fold_right Z.add 0 (map snd entries))
                   (leaves_of symbol_of entries).
Proof.
  induction entries as [|[i f] entries [Hwb Hl Hi Hf]].
  - split; [constructor | reflexivity ..].
  - split.
    + constructor; [|exact Hwb]. now split.
    + unfold forest_leaves in *. simpl. now rewrite Hl.
    + unfold forest_internal in *. simpl in *. lia.
    + unfold forest_frequency in *. simpl in *. lia.
Qed.

Lemma positive_entries_invariant (symbol_of : nat -> string)
      (frequencies : list Z) :
  forest_invariant (positive_count frequencies) (positive_total frequencies)
                   (leaves_of symbol_of (positive_entries frequencies)).
Proof.
  unfold positive_count, positive_total.
  rewrite <- positive_entries_counts, length_map.
  apply leaves_of_invariant.
Qed.

Lemma leaves_of_length (symbol_of : nat -> string)
      (frequencies : list Z) :
  List.length (leaves_of symbol_of (positive_entries frequencies))
  = positive_count frequencies.
Proof.
  unfold leaves_of, positive_count.
  now rewrite <- positive_entries_counts, !length_map.
Qed.

Lemma greedy_build_huffman_tree_unfold (frequencies : list Z) :
  Greedy_Alg.build_huffman_tree frequencies
  = huffman (Greedy_Alg.initialize_forest frequencies).
Proof. reflexivity. Qed.

(* ================================================================== *)
(** ** Code tables *)

(** Induction on a node with its optional children. *)
Lemma Node_induction (P : Node -> Prop) :
  (forall f s l r,
      (forall n, l = Some n -> P n) ->
      (forall n, r = Some n -> P n) ->
      P (mkNode f s l r)) ->
  forall n, P n.
Proof.
  intros step. fix IH 1. intros [f s l r]. apply step.
  - destruct l as [a|]; intros n E; [injection E as <-; apply IH|].
    discriminate E.
  - destruct r as [b|]; intros n E; [injection E as <-; apply IH|].
    discriminate E.
Qed.

Section Dict.

Lemma dict_get_set (d : dict) (k v k' : string) :
  dict_get (dict_set d k v) k'
  = if String.eqb k' k then Some v else dict_get d k'.
Proof.
  induction d as [|[k0 v0] d IH]; simpl.
  - reflexivity.
  - destruct (String.eqb_spec k k0) as [->|Hk]; simpl.
    + destruct (String.eqb_spec k' k0); reflexivity.
    + rewrite IH. destruct (String.eqb_spec k' k0) as [->|];
        [|reflexivity].
      destruct (String.eqb_spec k0 k); congruence.
Qed.

Lemma dict_set_keys (d : dict) (k v : string) :
  unique_keys d -> unique_keys (dict_set d k v)
  /\ (forall x, In x (map fst (dict_set d k v)) <-> x = k \/ In x (map fst d)).
Proof.
  unfold unique_keys. induction d as [|[k0 v0] d IH]; simpl; intros Hd.
  - split; [repeat constructor; auto | intros x; split; intuition].
  - inversion Hd as [|? ? Hnot Hd']; subst.
    destruct (String.eqb_spec k k0) as [->|Hk]; simpl.
    + split; [now constructor | intros x; intuition].
    + destruct (IH Hd') as [IH1 IH2]. split.
      * constructor; [|exact IH1]. rewrite IH2. intuition.
      * intros x. rewrite IH2. intuition.
Qed.

Lemma assign_unique_keys (codes : list (string * string)) (d : dict) :
  unique_keys d -> unique_keys (assign d codes).
Proof.
  revert d. induction codes as [|[s c] codes IH]; intros d Hd; [exact Hd|].
  simpl. apply IH. now apply dict_set_keys.
Qed.

(** A binding of the table comes from the pairs or was there before. *)
Lemma dict_get_assign (codes : list (string * string)) (d : dict)
      (k v : string) :
  dict_get (assign d codes) k = Some v ->
  In (k, v) codes \/ dict_get d k = Some v.
Proof.
  revert d. induction codes as [|[s c] codes IH]; intros d H; [now right|].
  simpl in H. apply IH in H as [H|H]; [left; now right|].
  rewrite dict_get_set in H.
  destruct (String.eqb_spec k s) as [->|]; [|now right].
  injection H as <-. left. now left.
Qed.

(** Every key of the pairs is bound in the table. *)
Lemma assign_binds (codes : list (string * string)) (d : dict) (k : string) :
  In k (map fst codes) \/ dict_get d k <> None ->
  dict_get (assign d codes) k <> None.
Proof.
  revert d. induction codes as [|[s c] codes IH]; intros d H.
  - simpl in *. tauto.
  - simpl. apply IH. rewrite dict_get_set.
    destruct (String.eqb_spec k s) as [->|Hk]; [right; discriminate|].
    simpl in H. destruct H as [[H|H]|H]; [congruence | now left | now right].
Qed.

Lemma dict_get_in (d : dict) (k v : string) :
  dict_get d k = Some v -> In (k, v) d.
Proof.
  induction d as [|[k0 v0] d IH]; simpl; [discriminate|].
  destruct (String.eqb_spec k k0) as [->|]; intros H.
  - injection H as <-. now left.
  - right. auto.
Qed.

Lemma in_dict_get (d : dict) (k v : string) :
  unique_keys d -> In (k, v) d -> dict_get d k = Some v.
Proof.
  unfold unique_keys. induction d as [|[k0 v0] d IH]; simpl; [tauto|].
  intros Hd [H|H].
  - injection H as -> ->. now rewrite String.eqb_refl.
  - inversion Hd as [|? ? Hnot Hd']; subst.
    destruct (String.eqb_spec k k0) as [->|]; [|auto].
    exfalso. apply Hnot. now apply (in_map fst) in H.
Qed.

End Dict.

Section LeafCodes.

Lemma traverse_node_assign (n : Node) :
  forall code table,
    traverse_node n code table = assign table (leaf_codes n code).
Proof.
  induction n as [f s l r IHl IHr] using Node_induction.
  intros code table. destruct s as [symbol|]; [reflexivity|].
  simpl. unfold assign. rewrite fold_left_app. fold (assign table).
  destruct l as [a|], r as [b|]; simpl;
    rewrite ?(IHl a eq_refl), ?(IHr b eq_refl); reflexivity.
Qed.

Lemma build_encoding_table_assign (root : Node) :
  build_encoding_table (Some root) = assign [] (leaf_codes root "").
Proof. apply traverse_node_assign. Qed.

Lemma count_leaves_length (n : Node) :
  forall code, List.length (leaf_codes n code) = count_leaves n.
Proof.
  induction n as [f s l r IHl IHr] using Node_induction.
  intros code. destruct s as [symbol|]; [reflexivity|].
  simpl. rewrite length_app.
  destruct l as [a|], r as [b|]; simpl;
    rewrite ?(IHl a eq_refl), ?(IHr b eq_refl); reflexivity.
Qed.

(** Every accumulated code extends the code the traversal started with. *)
Lemma leaf_codes_extend (n : Node) :
  forall code s c, In (s, c) (leaf_codes n code) -> is_prefix code c.
Proof.
  induction n as [f s l r IHl IHr] using Node_induction.
  intros code s' c H. destruct s as [symbol|].
  - destruct H as [H|[]]. injection H as _ <-. apply is_prefix_refl.
  - simpl in H. apply in_app_or in H as [H|H].
    + destruct l as [a|]; [|destruct H].
      apply (IHl a eq_refl) in H. eapply is_prefix_trans; [|exact H].
      now exists "0"%string.
    + destruct r as [b|]; [|destruct H].
      apply (IHr b eq_refl) in H. eapply is_prefix_trans; [|exact H].
      now exists "1"%string.
Qed.

Lemma ForallOrdPairs_app {A : Type} (R : A -> A -> Prop) (l1 l2 : list A) :
  ForallOrdPairs R l1 -> ForallOrdPairs R l2 ->
  (forall x y, In x l1 -> In y l2 -> R x y) ->
  ForallOrdPairs R (l1 ++ l2).
Proof.
  induction 1 as [|x l1 Hx H1 IH]; intros H2 Hc; [exact H2|].
  simpl. constructor.
  - apply Forall_app. split; [exact Hx|].
    apply Forall_forall. intros y Hy. apply Hc; [now left | exact Hy].
  - apply IH; [exact H2|]. intros a b Ha Hb. apply Hc; [now right | exact Hb].
Qed.

(** The codes of two leaves are never a prefix of one another. *)
Lemma leaf_codes_incomparable (n : Node) :
  forall code,
    ForallOrdPairs (fun x y => incomparable (snd x) (snd y))
                   (leaf_codes n code).
Proof.
  induction n as [f s l r IHl IHr] using Node_induction.
  intros code. destruct s as [symbol|].
  - simpl. repeat constructor.
  - simpl. apply ForallOrdPairs_app.
    + destruct l as [a|]; [now apply IHl | constructor].
    + destruct r as [b|]; [now apply IHr | constructor].
    + intros [s1 c1] [s2 c2] H1 H2.
      destruct l as [a|]; [|destruct H1]. destruct r as [b|]; [|destruct H2].
      apply leaf_codes_extend in H1 as [q1 ->].
      apply leaf_codes_extend in H2 as [q2 ->].
      simpl. apply incomparable_extend, incomparable_branches.
Qed.

Lemma leaf_codes_distinct (n : Node) (code s1 c1 s2 c2 : string) :
  In (s1, c1) (leaf_codes n code) -> In (s2, c2) (leaf_codes n code) ->
  s1 <> s2 -> incomparable c1 c2.
Proof.
  intros H1 H2 Hne.
  destruct (ForallOrdPairs_In (leaf_codes_incomparable n code) _ _ H1 H2)
    as [E|[H|H]]; [congruence | exact H | now apply incomparable_sym].
Qed.

(** Below an internal root every code has at least one bit. *)
Lemma leaf_codes_nonempty (n : Node) (s c : string) :
  get_symbol n = None -> In (s, c) (leaf_codes n "") -> c <> ""%string.
Proof.
  destruct n as [f [symbol|] l r]; [discriminate|]. intros _ H.
  simpl in H. apply in_app_or in H as [H|H].
  - destruct l as [a|]; [|destruct H].
    apply leaf_codes_extend in H as [q ->]. discriminate.
  - destruct r as [b|]; [|destruct H].
    apply leaf_codes_extend in H as [q ->]. discriminate.
Qed.

Lemma two_leaves_internal (n : Node) :
  (2 <= count_leaves n)%nat -> get_symbol n = None.
Proof. destruct n as [f [symbol|] l r]; simpl; [lia | reflexivity]. Qed.

Lemma build_encoding_table_binding (root : Node) (s c : string) :
  dict_get (build_encoding_table (Some root)) s = Some c ->
  In (s, c) (leaf_codes root "").
Proof.
  rewrite build_encoding_table_assign. intros H.
  apply dict_get_assign in H as [H|H]; [exact H | discriminate].
Qed.

Lemma build_encoding_table_unique_keys (root : option Node) :
  unique_keys (build_encoding_table root).
Proof.
  destruct root as [n|]; [|constructor].
  rewrite build_encoding_table_assign. apply assign_unique_keys. constructor.
Qed.

(** The table of a tree with an internal root is a prefix code. *)
Lemma build_encoding_table_prefix_code (root : Node) :
  get_symbol root = None -> prefix_code (build_encoding_table (Some root)).
Proof.
  intros Hroot. split.
  - intros a ca H. apply build_encoding_table_binding in H.
    now apply leaf_codes_nonempty in H.
  - intros a b ca cb Hne Ha Hb.
    apply build_encoding_table_binding in Ha, Hb.
    eapply leaf_codes_distinct; eassumption.
Qed.

End LeafCodes.

(** *** The 27-entry table of [Greedy_Alg.py] *)

Section GreedyTable.

Lemma for_each_app {S A : Type} (xs ys : list A) (body : S -> A -> result S)
      (s : S) :
  for_each (xs ++ ys) body s = bind (for_each xs body s) (for_each ys body).
Proof.
  revert s. induction xs as [|x xs IH]; intros s; [reflexivity|].
  simpl. destruct (body s x); simpl; auto.
Qed.

Lemma greedy_assign_app (table : list string)
      (xs ys : list (string * string)) :
  greedy_assign table (xs ++ ys)
  = bind (greedy_assign table xs) (fun t => greedy_assign t ys).
Proof. apply for_each_app. Qed.

Lemma greedy_traverse_node_assign (n : Node) :
  forall code table,
    Greedy_Alg.traverse_node n code table
    = greedy_assign table (leaf_codes n code).
Proof.
  induction n as [f s l r IHl IHr] using Node_induction.
  intros code table. destruct s as [symbol|].
  - simpl. unfold greedy_assign. simpl.
    destruct (Greedy_Alg.table_index symbol); simpl; [|reflexivity ..].
    now destruct (setitem table a code).
  - simpl. rewrite greedy_assign_app.
    destruct l as [a|], r as [b|]; simpl.
    + rewrite (IHl a eq_refl).
      destruct (greedy_assign table (leaf_codes a (code ++ "0")));
        simpl; [apply (IHr b eq_refl) | reflexivity ..].
    + rewrite (IHl a eq_refl).
      destruct (greedy_assign table (leaf_codes a (code ++ "0")));
        reflexivity.
    + apply (IHr b eq_refl).
    + reflexivity.
Qed.

Lemma table_index_greedy_symbol (i : nat) :
  (i < 27)%nat -> Greedy_Alg.table_index (greedy_symbol i) = Ok (Z.of_nat i).
Proof.
  intros H. do 27 (destruct i as [|i]; [reflexivity|]). lia.
Qed.

Lemma in_alphabet_index (s : string) :
  in_alphabet s = true -> exists i, (i < 27)%nat /\ s = greedy_symbol i.
Proof.
  unfold in_alphabet. intros H. apply existsb_exists in H as (i & Hi & E).
  exists i. apply in_seq in Hi. apply String.eqb_eq in E. split; [lia|auto].
Qed.

Lemma greedy_symbol_injective (i j : nat) :
  (i < 27)%nat -> (j < 27)%nat -> greedy_symbol i = greedy_symbol j -> i = j.
Proof.
  intros Hi Hj E. apply (f_equal Greedy_Alg.table_index) in E.
  rewrite !table_index_greedy_symbol in E by assumption.
  injection E as E. lia.
Qed.

Lemma length_update {A : Type} (l : list A) (k : nat) (v : A) :
  List.length (update l k v) = List.length l.
Proof.
  revert k. induction l as [|x l IH]; intros [|k]; simpl; auto.
Qed.

Lemma nth_update {A : Type} (l : list A) (k i : nat) (v d : A) :
  (k < List.length l)%nat ->
  nth i (update l k v) d = if (i =? k)%nat then v else nth i l d.
Proof.
  revert k i. induction l as [|x l IH]; intros [|k] [|i] H; simpl in *;
    try lia; try reflexivity.
  apply IH. lia.
Qed.

Lemma in_update {A : Type} (l : list A) (k : nat) (v x : A) :
  In x (update l k v) -> x = v \/ In x l.
Proof.
  revert k. induction l as [|y l IH]; intros [|k]; simpl; try tauto.
  - intros [H|H]; auto.
  - intros [H|H]; auto. apply IH in H. tauto.
Qed.

Lemma setitem_in_range {A : Type} (l : list A) (i : nat) (v : A) :
  (i < List.length l)%nat -> setitem l (Z.of_nat i) v = Ok (update l i v).
Proof.
  intros H. unfold setitem, position.
  destruct (Z.leb_spec 0 (Z.of_nat i)); [|lia].
  destruct (Z.ltb_spec (Z.of_nat i) (Z.of_nat (List.length l))); [|lia].
  simpl. now rewrite Nat2Z.id.
Qed.

Lemma getitem_in_range {A : Type} (l : list A) (i : nat) (d : A) :
  (i < List.length l)%nat -> getitem l (Z.of_nat i) = Ok (nth i l d).
Proof.
  intros H. unfold getitem, position.
  destruct (Z.leb_spec 0 (Z.of_nat i)); [|lia].
  destruct (Z.ltb_spec (Z.of_nat i) (Z.of_nat (List.length l))); [|lia].
  simpl. rewrite Nat2Z.id. unfold item.
  now rewrite (nth_error_nth' l d H).
Qed.

(** Over the alphabet, the assignments succeed and entry [i] ends as the
    code of a pair for the symbol of index [i], or as it was. *)
Lemma greedy_assign_entries (codes : list (string * string)) :
  forall table,
    List.length table = 27%nat ->
    forallb in_alphabet (map fst codes) = true ->
    exists table',
      greedy_assign table codes = Ok table'
      /\ List.length table' = 27%nat
      /\ forall i, (i < 27)%nat ->
           (nth i table' ""%string = nth i table ""%string
            /\ ~ In (greedy_symbol i) (map fst codes))
           \/ In (greedy_symbol i, nth i table' ""%string) codes.
Proof.
  induction codes as [|[s c] codes IH]; intros table Hlen Hall.
  - exists table. split; [reflexivity|]. split; [exact Hlen|].
    intros i _. left. split; [reflexivity | intros []].
  - simpl in Hall. apply andb_prop in Hall as [Hs Hall].
    apply in_alphabet_index in Hs as (j & Hj & ->).
    destruct (IH (update table j c)) as (table' & Hrun & Hlen' & Hent);
      [now rewrite length_update | exact Hall |].
    exists table'. split; [|split; [exact Hlen'|]].
    + unfold greedy_assign. simpl.
      rewrite table_index_greedy_symbol by exact Hj. simpl.
      rewrite setitem_in_range by lia. exact Hrun.
    + intros i Hi. destruct (Hent i Hi) as [[Hsame Hnot]|Hin].
      * rewrite nth_update in Hsame by lia.
        destruct (Nat.eqb_spec i j) as [->|Hij].
        -- right. left. now rewrite Hsame.
        -- left. split; [exact Hsame|]. simpl. intros [E|E]; [|tauto].
           apply greedy_symbol_injective in E; auto.
      * right. now right.
Qed.

(** Whatever the symbols, an entry of the result is a code of the pairs or
    an entry of the table the assignments started from. *)
Lemma greedy_assign_origin (codes : list (string * string)) :
  forall table table' c,
    greedy_assign table codes = Ok table' ->
    In c table' ->
    In c table \/ In c (map snd codes).
Proof.
  induction codes as [|[s c0] codes IH]; intros table table' c Hrun Hin.
  - injection Hrun as <-. now left.
  - unfold greedy_assign in Hrun. simpl in Hrun.
    destruct (Greedy_Alg.table_index s) as [i| |]; try discriminate.
    simpl in Hrun. unfold setitem in Hrun.
    destruct (position table i) as [k| |]; try discriminate.
    simpl in Hrun. destruct (IH _ _ _ Hrun Hin) as [H|H].
    + apply in_update in H as [->|H]; [right; now left | now left].
    + right. now right.
Qed.

Lemma greedy_code_entry (table : list string) (i : nat) :
  List.length table = 27%nat -> (i < 27)%nat ->
  greedy_code table (greedy_symbol i) = Ok (nth i table ""%string).
Proof.
  intros Hlen Hi. unfold greedy_code.
  rewrite table_index_greedy_symbol by exact Hi. simpl.
  apply getitem_in_range. lia.
Qed.

(** Over the alphabet, the entry of a leaf symbol is the code of a leaf
    with that symbol. *)
Lemma greedy_table_binding (root : Node) :
  forallb in_alphabet (symbols_of root) = true ->
  exists table,
    Greedy_Alg.build_encoding_table (Some root) = Ok table
    /\ forall a, In a (symbols_of root) ->
         exists ca, greedy_code table a = Ok ca
                    /\ In (a, ca) (leaf_codes root "").
Proof.
  intros Hall.
  destruct (greedy_assign_entries (leaf_codes root "")
                                  (repeat ""%string 27%nat))
    as (table & Hrun & Hlen & Hent); [reflexivity | exact Hall |].
  exists table. split.
  - unfold Greedy_Alg.build_encoding_table. simpl.
    now rewrite greedy_traverse_node_assign.
  - intros a Ha.
    assert (Hin : in_alphabet a = true).
    { unfold symbols_of in Hall. rewrite forallb_forall in Hall. auto. }
    apply in_alphabet_index in Hin as (i & Hi & ->).
    exists (nth i table ""%string). split.
    + now apply greedy_code_entry.
    + destruct (Hent i Hi) as [[_ Hnot]|Hin]; [contradiction | exact Hin].
Qed.

End GreedyTable.

(* ================================================================== *)
(** ** Encoding and decoding with a table *)

Section Encoding.

Variable table : dict.

Let body (codes : list string) (char : string) : result (list string) :=
  code <- dict_getitem table char ;; Ok (codes ++ [code]).

Lemma encode_loop_codes (symbols codes : list string) :
  Forall2 (fun char code => dict_get table char = Some code) symbols codes ->
  forall acc, for_each symbols body acc = Ok (acc ++ codes).
Proof.
  induction 1 as [|char code symbols codes Hc _ IH]; intros acc.
  - simpl. now rewrite app_nil_r.
  - simpl. unfold body at 1, dict_getitem. rewrite Hc. simpl.
    rewrite IH, <- app_assoc. reflexivity.
Qed.

Lemma encode_loop_key_error (symbols : list string) :
  Exists (fun char => dict_get table char = None) symbols ->
  forall acc, for_each symbols body acc = Raise KeyError.
Proof.
  induction symbols as [|char symbols IH]; intros Hex acc.
  - inversion Hex.
  - simpl. unfold body at 1, dict_getitem.
    destruct (dict_get table char) as [code|] eqn:Hc; [|reflexivity].
    simpl. apply IH. inversion Hex; [congruence | assumption].
Qed.

(** The encoder concatenates the codes of the symbols, in message order. *)
Lemma encode_with_table_codes (message : string) (codes : list string) :
  Forall2 (fun char code => dict_get table char = Some code)
          (chars message) codes ->
  encode_with_table message table = Ok (String.concat "" codes).
Proof.
  intros H. unfold encode_with_table.
  fold body. now rewrite (encode_loop_codes _ _ H).
Qed.

(** A symbol that is not a key of the table makes the encoder raise
    [KeyError]. *)
Lemma encode_with_table_key_error (message : string) :
  Exists (fun char => dict_get table char = None) (chars message) ->
  encode_with_table message table = Raise KeyError.
Proof.
  intros H. unfold encode_with_table.
  fold body. now rewrite (encode_loop_key_error _ H).
Qed.

Lemma covered_codes (symbols : list string) :
  Forall (fun char => dict_get table char <> None) symbols ->
  exists codes,
    Forall2 (fun char code => dict_get table char = Some code) symbols codes.
Proof.
  induction 1 as [|char symbols Hc _ [codes IH]].
  - exists []. constructor.
  - destruct (dict_get table char) as [code|] eqn:E; [|congruence].
    exists (code :: codes). now constructor.
Qed.

End Encoding.

Section Decoding.

Variable table : dict.
Hypothesis table_keys : unique_keys table.
Hypothesis table_code : prefix_code table.

Let reverse_table : dict := build_reverse_table table.

Lemma reverse_loop_binding (l : dict) :
  forall reverse c s,
    dict_get
      (fold_left (fun reverse '(symbol, code) => dict_set reverse code symbol)
                 l reverse) c = Some s ->
    In (s, c) l \/ dict_get reverse c = Some s.
Proof.
  induction l as [|[s0 c0] l IH]; intros reverse c s H; [now right|].
  simpl in H. apply IH in H as [H|H]; [left; now right|].
  rewrite dict_get_set in H.
  destruct (String.eqb_spec c c0) as [->|]; [|now right].
  injection H as <-. left. now left.
Qed.

Lemma reverse_loop_binds (l : dict) :
  forall reverse c,
    In c (map snd l) \/ dict_get reverse c <> None ->
    dict_get
      (fold_left (fun reverse '(symbol, code) => dict_set reverse code symbol)
                 l reverse) c <> None.
Proof.
  induction l as [|[s0 c0] l IH]; intros reverse c H.
  - simpl in *. tauto.
  - simpl. apply IH. rewrite dict_get_set.
    destruct (String.eqb_spec c c0) as [->|Hc]; [right; discriminate|].
    simpl in H. destruct H as [[H|H]|H]; [congruence | now left | now right].
Qed.

(** The reverse table maps a bitstring to a symbol whose code it is. *)
Lemma reverse_table_sound (c s : string) :
  dict_get reverse_table c = Some s -> dict_get table s = Some c.
Proof.
  intros H. apply reverse_loop_binding in H as [H|H]; [|discriminate].
  now apply in_dict_get.
Qed.

(** The reverse table maps the code of a symbol back to the symbol. *)
Lemma reverse_table_complete (s c : string) :
  dict_get table s = Some c -> dict_get reverse_table c = Some s.
Proof.
  intros H.
  destruct (dict_get reverse_table c) as [s'|] eqn:E.
  - apply reverse_table_sound in E.
    destruct (string_dec s' s) as [->|Hne]; [reflexivity|].
    destruct table_code as [_ Hinc].
    destruct (Hinc _ _ _ _ Hne E H) as [Hp _].
    exfalso. apply Hp, is_prefix_refl.
  - exfalso. revert E. apply reverse_loop_binds. left.
    apply dict_get_in in H. now apply (in_map snd) in H.
Qed.

(** No bitstring that stops short of a code is a key of the reverse
    table. *)
Lemma reverse_table_strict_prefix (s c u : string) :
  dict_get table s = Some c -> is_prefix u c -> u <> c ->
  dict_get reverse_table u = None.
Proof.
  intros Hs Hu Hne.
  destruct (dict_get reverse_table u) as [s'|] eqn:E; [|reflexivity].
  apply reverse_table_sound in E.
  destruct (string_dec s' s) as [->|Hss]; [congruence|].
  destruct table_code as [_ Hinc].
  destruct (Hinc _ _ _ _ Hss E Hs) as [Hp _]. contradiction.
Qed.

Lemma append_same_l (a b : string) : (a ++ b)%string = a -> b = ""%string.
Proof.
  intros H. apply (append_cancel_l a). now rewrite append_nil_r.
Qed.

(** Bits that stop short of a code are only accumulated. *)
Lemma decode_partial (s c : string) (decoded : list string) :
  dict_get table s = Some c ->
  forall q p,
    is_prefix (p ++ q) c -> (p ++ q)%string <> c ->
    fold_left (decode_step reverse_table) (chars q) (decoded, p)
    = (decoded, (p ++ q)%string).
Proof.
  intros Hs. induction q as [|b q IH]; intros p Hpre Hne.
  - simpl. now rewrite append_nil_r.
  - assert (E : (p ++ String b q)%string = ((p ++ String b "") ++ q)%string)
      by now rewrite append_assoc.
    rewrite E in Hpre, Hne. simpl. fold reverse_table.
    rewrite (reverse_table_strict_prefix s c); auto.
    + rewrite IH; auto. now rewrite E.
    + eapply is_prefix_trans; [|exact Hpre]. now exists q.
    + intros Hc. rewrite Hc in Hpre. destruct Hpre as [t Ht].
      rewrite append_assoc in Ht. symmetry in Ht.
      apply append_same_l, append_eq_nil in Ht as [-> _].
      now rewrite append_nil_r in Hne.
Qed.

Lemma string_last (q : string) :
  q <> ""%string -> exists q0 b, q = (q0 ++ String b "")%string.
Proof.
  induction q as [|a q IH]; [congruence|]. intros _.
  destruct q as [|a' q'].
  - now exists ""%string, a.
  - destruct IH as (q0 & b & E); [discriminate|].
    exists (String a q0), b. simpl. now rewrite E.
Qed.

(** The last bit of a code emits its symbol and clears the accumulator. *)
Lemma decode_complete (s c : string) (decoded : list string) :
  dict_get table s = Some c -> c <> ""%string ->
  fold_left (decode_step reverse_table) (chars c) (decoded, ""%string)
  = (decoded ++ [s], ""%string).
Proof.
  intros Hs Hne. destruct (string_last c Hne) as (q0 & b & E).
  rewrite E, chars_append, fold_left_app.
  rewrite (decode_partial s c decoded Hs q0 ""%string).
  - simpl. rewrite <- E. fold reverse_table.
    now rewrite (reverse_table_complete s c Hs).
  - simpl. rewrite E. now exists (String b "").
  - simpl. intros H. rewrite <- H in E. symmetry in E.
    apply append_same_l in E. discriminate.
Qed.

(** Decoding a concatenation of codes emits their symbols and goes on with
    what follows. *)
Lemma decode_codes (symbols codes : list string) (rest : string) :
  Forall2 (fun char code => dict_get table char = Some code) symbols codes ->
  forall decoded,
    fold_left (decode_step reverse_table)
              (chars (String.concat "" codes ++ rest)) (decoded, ""%string)
    = fold_left (decode_step reverse_table) (chars rest)
                (decoded ++ symbols, ""%string).
Proof.
  induction 1 as [|char code symbols codes Hc _ IH]; intros decoded.
  - simpl. now rewrite app_nil_r.
  - rewrite concat_nil_cons, append_assoc, chars_append, fold_left_app.
    rewrite (decode_complete char code decoded Hc).
    + rewrite IH, <- app_assoc. reflexivity.
    + destruct table_code as [Hne _]. eauto.
Qed.

(** Round trip through a prefix code, with incomplete trailing bits
    [rest] that are dropped. *)
Lemma decode_encode_with_rest (message rest s c : string) :
  Forall (fun char => dict_get table char <> None) (chars message) ->
  dict_get table s = Some c -> is_prefix rest c -> rest <> c ->
  exists encoded,
    encode_with_table message table = Ok encoded
    /\ decode_with_table (encoded ++ rest) reverse_table = message.
Proof.
  intros Hcov Hs Hpre Hne.
  destruct (covered_codes table _ Hcov) as [codes Hcodes].
  exists (String.concat "" codes). split.
  - now apply encode_with_table_codes.
  - unfold decode_with_table.
    rewrite (decode_codes _ _ rest Hcodes []).
    rewrite (decode_partial s c _ Hs rest ""%string); auto.
    simpl. apply concat_chars.
Qed.

End Decoding.

(* ================================================================== *)
(** ** The tree walk of [Greedy_Alg.decode] *)

Section TreeWalk.

Variable huffman_root : option Node.

(** Bits that stop short of the code of a leaf below [n] walk to an
    internal node and emit nothing. *)
Lemma decode_walk_partial (decoded : list Greedy_Alg.object) :
  forall p n code s q,
    get_symbol n = None ->
    In (s, (code ++ p ++ q)%string) (leaf_codes n code) ->
    q <> ""%string ->
    exists n',
      for_each (chars p) (Greedy_Alg.decode_step huffman_root)
               (decoded, Some n)
      = Ok (decoded, Some n')
      /\ get_symbol n' = None.
Proof.
  induction p as [|b p IH]; intros n code s q Hn Hin Hq.
  - exists n. now split.
  - destruct n as [f [symbol|] l r]; [discriminate|]. simpl in Hin.
    assert (Hstep : forall child branch,
               In (s, (code ++ String b (p ++ q))%string)
                  (leaf_codes child (code ++ branch)) ->
               exists t, String b (p ++ q) = (branch ++ t)%string).
    { intros child branch H. apply leaf_codes_extend in H as [t Ht].
      exists t. rewrite append_assoc in Ht. now apply append_cancel_l in Ht. }
    assert (Hleaf : forall child branch,
               String b (p ++ q) = (branch ++ p ++ q)%string ->
               In (s, (code ++ String b (p ++ q))%string)
                  (leaf_codes child (code ++ branch)) ->
               get_symbol child = None).
    { intros [f' [symbol'|] l' r'] branch E H; [|reflexivity].
      simpl in H. destruct H as [H|[]]. injection H as _ H.
      rewrite E, <- append_assoc in H. symmetry in H.
      apply append_same_l in H.
      apply append_eq_nil in H as [_ H]. contradiction. }
    apply in_app_or in Hin as [Hin|Hin].
    + destruct l as [a|]; [|destruct Hin].
      destruct (Hstep _ _ Hin) as [t Ht]. simpl in Ht.
      injection Ht as -> _.
      pose proof (Hleaf a "0"%string eq_refl Hin) as Ha.
      destruct (IH a (code ++ "0")%string s q Ha) as (n' & Hrun & Hn');
        [now rewrite append_assoc | exact Hq |].
      exists n'. split; [|exact Hn'].
      simpl. rewrite Ha. exact Hrun.
    + destruct r as [a|]; [|destruct Hin].
      destruct (Hstep _ _ Hin) as [t Ht]. simpl in Ht.
      injection Ht as -> _.
      pose proof (Hleaf a "1"%string eq_refl Hin) as Ha.
      destruct (IH a (code ++ "1")%string s q Ha) as (n' & Hrun & Hn');
        [now rewrite append_assoc | exact Hq |].
      exists n'. split; [|exact Hn'].
      simpl. rewrite Ha. exact Hrun.
Qed.

End TreeWalk.

(** On bits that stop short of a code of the table, [decode] returns the
    empty message. *)
Lemma greedy_decode_partial (root : Node) (table : list string)
      (c p : string) :
  Greedy_Alg.build_encoding_table (Some root) = Ok table ->
  In c table -> is_prefix p c -> p <> c ->
  Greedy_Alg.decode p (Some root) = Ok ""%string.
Proof.
  intros Htable Hc [q Hq] Hne.
  assert (Hqne : q <> ""%string).
  { intros ->. rewrite append_nil_r in Hq. congruence. }
  unfold Greedy_Alg.build_encoding_table in Htable. simpl in Htable.
  rewrite greedy_traverse_node_assign in Htable.
  destruct (greedy_assign_origin _ _ _ c Htable Hc) as [H|H].
  { apply (repeat_spec 27%nat ""%string c) in H. rewrite H in Hq.
    symmetry in Hq.
    apply append_eq_nil in Hq as [_ ?]. contradiction. }
  apply in_map_iff in H as ([s c'] & E & Hin). simpl in E. subst c' c.
  assert (Hroot : get_symbol root = None).
  { destruct root as [f [symbol|] l r]; [|reflexivity].
    simpl in Hin. destruct Hin as [Hin|[]]. injection Hin as _ Hin.
    symmetry in Hin. apply append_eq_nil in Hin as [_ ?]. contradiction. }
  destruct (decode_walk_partial (Some root) [] p root ""%string s q Hroot)
    as (n' & Hrun & _); [exact Hin | exact Hqne |].
  unfold Greedy_Alg.decode. rewrite Hrun. reflexivity.
Qed.

(* ================================================================== *)
(** ** Conservation at a merge, and the bits of a code *)

Lemma conserves_merged (s1 s2 : Node) :
  conserves s1 = true -> conserves s2 = true ->
  conserves (merged s1 s2) = true.
Proof.
  unfold conserves. intros H1 H2.
  apply andb_prop in H1 as [F1 S1]. apply andb_prop in H2 as [F2 S2].
  apply Z.eqb_eq in F1, F2. simpl.
  rewrite S1, S2, Z.eqb_refl, <- F1, <- F2, Z.eqb_refl. reflexivity.
Qed.

Lemma forallb_permutation {A : Type} (p : A -> bool) (l l' : list A) :
  Permutation l l' -> forallb p l = true -> forallb p l' = true.
Proof.
  intros Hp H. rewrite forallb_forall in *.
  intros x Hx. apply H. eapply Permutation_in; [symmetry|]; eassumption.
Qed.

(** One iteration keeps every tree of the forest conserving, and keeps the
    total of the leaf frequencies. *)
Lemma merge_conserves (forest : list Node) :
  forallb conserves forest = true ->
  (2 <= List.length forest)%nat ->
  exists forest',
    merge forest = Ok forest'
    /\ forallb conserves forest' = true
    /\ forest_frequency forest' = forest_frequency forest.
Proof.
  intros Hall Hlen.
  destruct (merge_split forest Hlen)
    as (s1 & f1 & s2 & f2 & k1 & k2 & _ & _ & _ & _ & Hperm & Hmerge).
  exists (f2 ++ [merged s1 s2]). split; [exact Hmerge|].
  assert (Hperm' : Permutation (merged s1 s2 :: f2) (f2 ++ [merged s1 s2]))
    by apply Permutation_cons_append.
  apply (forallb_permutation _ _ _ Hperm) in Hall. simpl in Hall.
  apply andb_prop in Hall as [H1 Hall]. apply andb_prop in Hall as [H2 Hall].
  split.
  - apply (forallb_permutation _ _ _ Hperm'). simpl.
    now rewrite conserves_merged, Hall.
  - rewrite <- (forest_frequency_permutation _ _ Hperm').
    rewrite (forest_frequency_permutation _ _ Hperm).
    unfold forest_frequency. simpl. lia.
Qed.

Lemma is_bitstring_append (a b : string) :
  is_bitstring (a ++ b) = is_bitstring a && is_bitstring b.
Proof. unfold is_bitstring. now rewrite chars_append, forallb_app. Qed.

(** The traversal accumulates bits only. *)
Lemma leaf_codes_bits (n : Node) :
  forall code s c,
    is_bitstring code = true -> In (s, c) (leaf_codes n code) ->
    is_bitstring c = true.
Proof.
  induction n as [f s l r IHl IHr] using Node_induction.
  intros code s' c Hcode H. destruct s as [symbol|].
  - destruct H as [H|[]]. now injection H as _ <-.
  - simpl in H. apply in_app_or in H as [H|H].
    + destruct l as [a|]; [|destruct H].
      apply (IHl a eq_refl) in H; [exact H|].
      now rewrite is_bitstring_append, Hcode.
    + destruct r as [b|]; [|destruct H].
      apply (IHr b eq_refl) in H; [exact H|].
      now rewrite is_bitstring_append, Hcode.
Qed.

Lemma forallb_contains_covered (table : dict) (symbols : list string) :
  forallb (dict_contains table) symbols = true ->
  Forall (fun char => dict_get table char <> None) symbols.
Proof.
  rewrite forallb_forall, Forall_forall. intros H x Hx.
  specialize (H x Hx). unfold dict_contains in H.
  destruct (dict_get table x); congruence.
Qed.

(** The properties of the codes of two leaves with distinct symbols. *)
Lemma leaf_codes_pair (root : Node) (a b ca cb : string) :
  a <> b ->
  In (a, ca) (leaf_codes root "") -> In (b, cb) (leaf_codes root "") ->
  (is_bitstring ca = true /\ is_bitstring cb = true)
  /\ ca <> ""%string /\ cb <> ""%string /\ ca <> cb
  /\ ~ is_prefix ca cb /\ ~ is_prefix cb ca.
Proof.
  intros Hne Ha Hb.
  destruct (leaf_codes_distinct root _ _ _ _ _ Ha Hb Hne) as [Hab Hba].
  split;
    [split; (eapply (leaf_codes_bits root ""%string);
             [reflexivity | eassumption])|].
  split; [intros ->; apply Hab, is_prefix_nil|].
  split; [intros ->; apply Hba, is_prefix_nil|].
  split; [intros ->; apply Hab, is_prefix_refl|]. now split.
Qed.

(* ================================================================== *)
(** ** The trees that the builders return *)

Lemma built_tree (symbol_of : nat -> string) (frequencies : list Z) :
  positive_count frequencies <> 0%nat ->
  exists root,
    huffman (leaves_of symbol_of (positive_entries frequencies))
    = Ok (Some root)
    /\ well_built root
    /\ count_leaves root = positive_count frequencies
    /\ S (count_internal root) = positive_count frequencies
    /\ leaf_frequencies root = positive_total frequencies.
Proof.
  intros Hpos. apply huffman_invariant.
  - intros E. apply (f_equal (@List.length Node)) in E.
    rewrite leaves_of_length in E. simpl in E. contradiction.
  - apply positive_entries_invariant.
Qed.

Lemma built_none (symbol_of : nat -> string) (frequencies : list Z) :
  positive_count frequencies = 0%nat ->
  huffman (leaves_of symbol_of (positive_entries frequencies)) = Ok None.
Proof.
  intros Hzero. unfold huffman.
  now rewrite leaves_of_length, Hzero.
Qed.

Lemma example_trees :
  tree_of hello_world = Ok (Some hello_tree)
  /\ greedy_tree_of hello_world = Ok (Some greedy_hello_tree)
  /\ tree_of "CABCBC" = Ok (Some abc_tree)
  /\ greedy_tree_of "CABCBC" = Ok (Some greedy_abc_tree).
Proof. repeat split; vm_compute; reflexivity. Qed.

(* ================================================================== *)
(** ** The symbols of the built tree *)

Section Symbols.

Lemma leaf_codes_symbols (n : Node) :
  forall code code', map fst (leaf_codes n code) = map fst (leaf_codes n code').
Proof.
  induction n as [f s l r IHl IHr] using Node_induction.
  intros code code'. destruct s as [symbol|]; [reflexivity|].
  simpl. rewrite !map_app.
  destruct l as [a|], r as [b|]; simpl;
    rewrite ?(IHl a eq_refl (code ++ "0")%string (code' ++ "0")%string),
            ?(IHr b eq_refl (code ++ "1")%string (code' ++ "1")%string);
    reflexivity.
Qed.

Lemma symbols_of_merged (s1 s2 : Node) :
  symbols_of (merged s1 s2) = symbols_of s1 ++ symbols_of s2.
Proof.
  unfold symbols_of. simpl. rewrite map_app.
  now rewrite (leaf_codes_symbols s1 "0" ""), (leaf_codes_symbols s2 "1" "").
Qed.

Lemma merge_symbols (forest forest' : list Node) :
  (2 <= List.length forest)%nat ->
  merge forest = Ok forest' ->
  Permutation (forest_symbols forest') (forest_symbols forest).
Proof.
  intros Hlen Hm.
  destruct (merge_split forest Hlen)
    as (s1 & f1 & s2 & f2 & k1 & k2 & _ & _ & _ & _ & Hperm & Hmerge).
  rewrite Hmerge in Hm. injection Hm as <-.
  unfold forest_symbols. rewrite (Permutation_flat_map _ Hperm).
  rewrite flat_map_app. simpl.
  rewrite symbols_of_merged, app_nil_r, (app_assoc (symbols_of s1)).
  apply Permutation_app_comm.
Qed.

Lemma while_loop_symbols (fuel : nat) :
  forall forest forest',
    while_loop fuel forest = Ok forest' ->
    (List.length forest' <= 1)%nat
    /\ Permutation (forest_symbols forest') (forest_symbols forest).
Proof.
  induction fuel as [|fuel IH]; intros forest forest' Hrun; simpl in Hrun.
  - destruct (Nat.ltb_spec 1 (List.length forest)); [discriminate|].
    injection Hrun as <-. split; [lia | reflexivity].
  - destruct (Nat.ltb_spec 1 (List.length forest)) as [Hgt|Hle].
    + destruct (merge forest) as [f1| |] eqn:Hm; try discriminate.
      simpl in Hrun. destruct (IH _ _ Hrun) as [Hlen Hperm].
      split; [exact Hlen|]. rewrite Hperm.
      apply merge_symbols; [lia | exact Hm].
    + injection Hrun as <-. split; [lia | reflexivity].
Qed.

(** The leaves of the tree carry the symbols of the initial forest. *)
Lemma huffman_symbols (forest : list Node) (root : Node) :
  huffman forest = Ok (Some root) ->
  Permutation (symbols_of root) (forest_symbols forest).
Proof.
  unfold huffman. destruct (List.length forest =? 0)%nat; [discriminate|].
  destruct (while_loop (List.length forest) forest) as [f'| |] eqn:Hrun;
    try discriminate.
  apply while_loop_symbols in Hrun as [Hlen Hperm].
  destruct f' as [|root' [|]]; simpl in Hlen; try lia; [discriminate|].
  simpl. intros E. injection E as <-.
  rewrite <- Hperm. unfold forest_symbols. simpl. now rewrite app_nil_r.
Qed.

Lemma forest_symbols_leaves (symbol_of : nat -> string)
      (entries : list (nat * Z)) :
  forest_symbols (leaves_of symbol_of entries)
  = map (fun e => symbol_of (fst e)) entries.
Proof.
  induction entries as [|[i f] entries IH]; [reflexivity|].
  simpl. now rewrite <- IH.
Qed.

Lemma in_enumerate {A : Type} (l : list A) (i : nat) (x : A) :
  In (i, x) (enumerate l) <-> nth_error l i = Some x.
Proof.
  unfold enumerate.
  assert (H : forall start,
             In (i, x) (combine (seq start (List.length l)) l)
             <-> (start <= i)%nat /\ nth_error l (i - start) = Some x).
  { induction l as [|y l IH]; intros start; simpl.
    - split; [tauto|]. intros [_ H]. now destruct (i - start)%nat.
    - rewrite IH. split.
      + intros [E|[Hle Hn]].
        * injection E as <- <-. rewrite Nat.sub_diag. now split.
        * split; [lia|]. replace (i - start)%nat with (S (i - S start))
            by lia. exact Hn.
      + intros [Hle Hn]. destruct (Nat.eq_dec start i) as [->|Hne].
        * rewrite Nat.sub_diag in Hn. injection Hn as ->. now left.
        * right. split; [lia|].
          replace (i - start)%nat with (S (i - S start)) in Hn by lia.
          exact Hn. }
  rewrite H, Nat.sub_0_r. intuition lia.
Qed.

Lemma in_positive_entries (frequencies : list Z) (i : nat) (f : Z) :
  In (i, f) (positive_entries frequencies)
  <-> nth_error frequencies i = Some f /\ 0 < f.
Proof.
  unfold positive_entries. rewrite filter_In, in_enumerate.
  destruct (Z.gtb_spec f 0); intuition (try lia; try discriminate).
Qed.

(** The trees of [build_huffman_tree] stay within the alphabet when the
    frequency list has at most 27 entries. *)
Lemma greedy_built_tree_alphabet (frequencies : list Z) (root : Node) :
  (List.length frequencies <= 27)%nat ->
  Greedy_Alg.build_huffman_tree frequencies = Ok (Some root) ->
  forallb in_alphabet (symbols_of root) = true.
Proof.
  intros Hlen Hrun.
  rewrite greedy_build_huffman_tree_unfold, initialize_forest_leaves in Hrun.
  apply huffman_symbols in Hrun. rewrite forest_symbols_leaves in Hrun.
  apply forallb_forall. intros s Hs.
  apply (Permutation_in _ Hrun) in Hs.
  apply in_map_iff in Hs as ([i f] & <- & Hin). simpl.
  apply in_positive_entries in Hin as [Hn _].
  assert (Hi : (i < 27)%nat).
  { assert (i < List.length frequencies)%nat
      by (apply nth_error_Some; congruence). lia. }
  unfold in_alphabet. apply existsb_exists. exists i.
  split; [apply in_seq; lia | apply String.eqb_refl].
Qed.

End Symbols.

(* ================================================================== *)
(** ** The steps of [Huffman.py], end to end *)

Section EndToEnd.

Lemma in_chars (message char : string) :
  In char (chars message) -> exists c, char = String c "".
Proof.
  induction message as [|c message IH]; simpl; [tauto|].
  intros [<-|H]; [now exists c | auto].
Qed.





End EndToEnd.

(* ================================================================== *)
(** ** The properties of the specification *)

(** C1 (round trip), as the code has it: the round trip does not hold for
    every non-empty message.  The steps of [Greedy_Alg.py] on
    ["HELLO WORLD"] end in [TypeError]: [encode] subscripts the function
    [build_encoding_table] instead of the table it is given, and [decode]
    collects the bound method [current.get_symbol] instead of the symbol,
    so that it raises [TypeError] on the correct encoding ["10"] of ["L"]
    too.  The steps of [Huffman.py] on the one-symbol message ["AAAA"]
    return the empty message: the single leaf gets the empty code. *)
Theorem round_trip_broken :
  greedy_round_trip hello_world = Raise TypeError
  /\ (exists table,
        Greedy_Alg.build_encoding_table (Some greedy_hello_tree) = Ok table
        /\ greedy_code table "L" = Ok "10"%string
        /\ Greedy_Alg.encode "L" table = Raise TypeError
        /\ Greedy_Alg.decode "10" (Some greedy_hello_tree) = Raise TypeError)
  /\ round_trip "AAAA" = Ok ""%string
  /\ round_trip hello_world = Ok hello_world.
Proof.
  split; [vm_compute; reflexivity|]. split.
  - eexists. repeat split; vm_compute; reflexivity.
  - split; vm_compute; reflexivity.
Qed.

(** C2 (prefix-free law): in the table that [build_encoding_table] of
    [Huffman.py] derives from a tree, the codes [ca] and [cb] of two
    distinct symbols are non-empty strings of bits, differ, and neither is
    a prefix of the other; the same holds of the entries that
    [build_encoding_table] of [Greedy_Alg.py] stores for two distinct leaf
    symbols of a tree over its alphabet.  (Two distinct symbols in the
    table imply the two leaves that the law asks for.) *)
Theorem code_tables_prefix_free
        (root groot : Node) (a b ca cb ga gb : string) :
  a <> b ->
  dict_get (build_encoding_table (Some root)) a = Some ca ->
  dict_get (build_encoding_table (Some root)) b = Some cb ->
  forallb in_alphabet (symbols_of groot) = true ->
  In ga (symbols_of groot) -> In gb (symbols_of groot) -> ga <> gb ->
  ((is_bitstring ca = true /\ is_bitstring cb = true)
   /\ ca <> ""%string /\ cb <> ""%string /\ ca <> cb
   /\ ~ is_prefix ca cb /\ ~ is_prefix cb ca)
  /\ exists table gca gcb,
      Greedy_Alg.build_encoding_table (Some groot) = Ok table
      /\ greedy_code table ga = Ok gca /\ greedy_code table gb = Ok gcb
      /\ (is_bitstring gca = true /\ is_bitstring gcb = true)
      /\ gca <> ""%string /\ gcb <> ""%string /\ gca <> gcb
      /\ ~ is_prefix gca gcb /\ ~ is_prefix gcb gca.
Proof.
  intros Hab Ha Hb Halpha Hga Hgb Hgab. split.
  - apply build_encoding_table_binding in Ha, Hb.
    now apply (leaf_codes_pair root a b).
  - destruct (greedy_table_binding groot Halpha) as (table & Htable & Hbind).
    destruct (Hbind ga Hga) as (gca & Hca & Hina).
    destruct (Hbind gb Hgb) as (gcb & Hcb & Hinb).
    exists table, gca, gcb.
    split; [exact Htable|]. split; [exact Hca|]. split; [exact Hcb|].
    now apply (leaf_codes_pair groot ga gb).
Qed.

Lemma code_tables_prefix_free_witness :
  ((is_bitstring "10" = true /\ is_bitstring "11" = true)
   /\ "10"%string <> ""%string /\ "11"%string <> ""%string
   /\ "10"%string <> "11"%string
   /\ ~ is_prefix "10" "11" /\ ~ is_prefix "11" "10")
  /\ exists table gca gcb,
      Greedy_Alg.build_encoding_table (Some greedy_abc_tree) = Ok table
      /\ greedy_code table "A" = Ok gca /\ greedy_code table "C" = Ok gcb
      /\ (is_bitstring gca = true /\ is_bitstring gcb = true)
      /\ gca <> ""%string /\ gcb <> ""%string /\ gca <> gcb
      /\ ~ is_prefix gca gcb /\ ~ is_prefix gcb gca.
Proof.
  apply (code_tables_prefix_free abc_tree greedy_abc_tree
                                 "A" "B" "10" "11" "A" "C").
  - discriminate.
  - reflexivity.
  - reflexivity.
  - reflexivity.
  - vm_compute. auto.
  - vm_compute. auto.
  - discriminate.
Defined.

(** C3 (truncated input), as stated, fails: neither decoder has a
    truncation check.  The encoding of ["HELLO WORLD"] without its last
    bit decodes, through the reverse table, to ["HELLO WORL"], and
    [decode] of [Greedy_Alg.py] returns the empty message on the single
    bit ["0"], which stops inside every code that starts with it. *)
Lemma truncated_input_is_accepted :
  encode_with_table hello_world (build_encoding_table (Some hello_tree))
  = Ok "00100010101101110011110010101111"%string
  /\ decode_with_table
       "0010001010110111001111001010111"
       (build_reverse_table (build_encoding_table (Some hello_tree)))
     = "HELLO WORL"%string
  /\ Greedy_Alg.decode "0" (Some greedy_hello_tree) = Ok ""%string.
Proof. repeat split; vm_compute; reflexivity. Qed.

(** C3, amended: bits that end inside a code raise nothing and are
    dropped.  With the table of [Huffman.py], the encoding of a message
    followed by bits [rest] that stop short of a code [rest ++ q] of the
    table decodes to the message (so an encoding without its last bit
    decodes to the message without its last symbol).  [decode] of
    [Greedy_Alg.py] returns the empty message on bits [gp] that stop short
    of an entry [gp ++ gq] of its table. *)
Theorem truncated_input_is_dropped
        (root groot : Node) (message s rest q : string)
        (gtable : list string) (gp gq : string) :
  forallb (dict_contains (build_encoding_table (Some root))) (chars message)
  = true ->
  dict_get (build_encoding_table (Some root)) s = Some (rest ++ q)%string ->
  q <> ""%string ->
  Greedy_Alg.build_encoding_table (Some groot) = Ok gtable ->
  In (gp ++ gq)%string gtable -> gq <> ""%string ->
  (exists encoded,
      encode_with_table message (build_encoding_table (Some root))
      = Ok encoded
      /\ decode_with_table
           (encoded ++ rest)
           (build_reverse_table (build_encoding_table (Some root)))
         = message)
  /\ Greedy_Alg.decode gp (Some groot) = Ok ""%string.
Proof.
  intros Hcov Hs Hq Hgtable Hgin Hgq. split.
  - assert (Hroot : get_symbol root = None).
    { apply build_encoding_table_binding in Hs.
      destruct root as [f [symbol|] l r]; [|reflexivity].
      simpl in Hs. destruct Hs as [Hs|[]]. injection Hs as _ Hs.
      symmetry in Hs. apply append_eq_nil in Hs as [_ ?]. contradiction. }
    apply (decode_encode_with_rest _
             (build_encoding_table_unique_keys (Some root))
             (build_encoding_table_prefix_code root Hroot)
             message rest s (rest ++ q)%string).
    + now apply forallb_contains_covered.
    + exact Hs.
    + now exists q.
    + intros E. symmetry in E. apply append_same_l in E. contradiction.
  - apply (greedy_decode_partial groot gtable (gp ++ gq)%string gp).
    + exact Hgtable.
    + exact Hgin.
    + now exists gq.
    + intros E. symmetry in E. apply append_same_l in E. contradiction.
Qed.

Lemma truncated_input_is_dropped_witness :
  (exists encoded,
      encode_with_table "CAB" (build_encoding_table (Some abc_tree))
      = Ok encoded
      /\ decode_with_table
           (encoded ++ "1")
           (build_reverse_table (build_encoding_table (Some abc_tree)))
         = "CAB"%string)
  /\ Greedy_Alg.decode "1" (Some greedy_abc_tree) = Ok ""%string.
Proof.
  apply (truncated_input_is_dropped
           abc_tree greedy_abc_tree "CAB" "A" "1" "0"
           ["10"; "11"; "0"; ""; ""; ""; ""; ""; ""; ""; ""; ""; ""; "";
            ""; ""; ""; ""; ""; ""; ""; ""; ""; ""; ""; ""; ""]%string
           "1" "0").
  - reflexivity.
  - reflexivity.
  - discriminate.
  - reflexivity.
  - simpl. auto.
  - discriminate.
Defined.

(** C4 (one-symbol alphabet), as the code has it: for the message
    ["AAAA"] both builders return the single leaf of ["A"], and both
    tables give ["A"] the empty code, not ["0"].  In [Huffman.py] the
    message encodes to the empty bitstring, which decodes to the empty
    message; in [Greedy_Alg.py] the steps end in [TypeError]. *)
Theorem single_symbol_code_is_empty :
  tree_of "AAAA" = Ok (Some (leaf "A" 4))
  /\ greedy_tree_of "AAAA" = Ok (Some (leaf "A" 4))
  /\ build_encoding_table (Some (leaf "A" 4)) = [("A", "")]%string
  /\ (exists table,
        Greedy_Alg.build_encoding_table (Some (leaf "A" 4)) = Ok table
        /\ greedy_code table "A" = Ok ""%string)
  /\ encode_with_table "AAAA" (build_encoding_table (Some (leaf "A" 4)))
     = Ok ""%string
  /\ round_trip "AAAA" = Ok ""%string
  /\ greedy_round_trip "AAAA" = Raise TypeError.
Proof.
  repeat split; try (vm_compute; reflexivity).
  eexists. split; vm_compute; reflexivity.
Qed.

(** C5 (encoder contract), as the code has it: [encode] of
    [Greedy_Alg.py] raises [TypeError] on every symbol but the space,
    whether the table has a code for it (as for every symbol of
    ["HELLO WORLD"]) or not (as for ["Z"]): it subscripts the function
    [build_encoding_table].  [encode_with_table] of [Huffman.py] returns
    the concatenation of the codes, and raises [KeyError] on ["Z"]. *)
Theorem greedy_encode_raises_type_error :
  exists table,
    Greedy_Alg.build_encoding_table (Some greedy_hello_tree) = Ok table
    /\ Greedy_Alg.encode hello_world table = Raise TypeError
    /\ greedy_code table "Z" = Ok ""%string
    /\ Greedy_Alg.encode "Z" table = Raise TypeError
    /\ encode_with_table hello_world (build_encoding_table (Some hello_tree))
       = Ok "00100010101101110011110010101111"%string
    /\ encode_with_table "Z" (build_encoding_table (Some hello_tree))
       = Raise KeyError.
Proof. eexists. repeat split; vm_compute; reflexivity. Qed.

(** C6 (null tree), as stated, fails: on [None] both derivers return a
    table. *)
Lemma null_tree_gives_a_table :
  build_encoding_table None = []
  /\ exists table, Greedy_Alg.build_encoding_table None = Ok table.
Proof. split; [reflexivity | eexists; reflexivity]. Qed.

(** C6, amended: [traverse] returns at once on [None] and leaves the table
    as it is, so on a [None] root [build_encoding_table] returns the empty
    dict in [Huffman.py] and the list of 27 empty strings in
    [Greedy_Alg.py], and raises nothing. *)
Theorem null_tree_gives_the_initial_table (code : string) (table : dict)
        (gtable : list string) :
  traverse None code table = table
  /\ Greedy_Alg.traverse None code gtable = Ok gtable
  /\ build_encoding_table None = []
  /\ Greedy_Alg.build_encoding_table None = Ok (repeat ""%string 27).
Proof. repeat split. Qed.

(** C7 (the two decoders agree), as the code has it: on the encoding of
    ["HELLO WORLD"], and already on the code ["10"] of ["L"], [decode] of
    [Greedy_Alg.py] raises [TypeError] where [decode_with_table] returns
    the message; on the bit ["0"] and the one-leaf tree of ["A"], [decode]
    raises [AttributeError] where [decode_with_table] returns the empty
    message. *)
Theorem decoders_disagree :
  Greedy_Alg.decode "00100010101101110011110010101111" (Some hello_tree)
  = Raise TypeError
  /\ decode_with_table
       "00100010101101110011110010101111"
       (build_reverse_table (build_encoding_table (Some hello_tree)))
     = hello_world
  /\ Greedy_Alg.decode "10" (Some hello_tree) = Raise TypeError
  /\ decode_with_table
       "10" (build_reverse_table (build_encoding_table (Some hello_tree)))
     = "L"%string
  /\ Greedy_Alg.decode "0" (Some (leaf "A" 4)) = Raise AttributeError
  /\ decode_with_table
       "0" (build_reverse_table (build_encoding_table (Some (leaf "A" 4))))
     = ""%string.
Proof. repeat split; vm_compute; reflexivity. Qed.

(** C8 (frequency conservation): for a frequency list with at least one
    positive count, [huffman] (on the forest of [create_forest]) and
    [build_huffman_tree] return a tree whose root stores the sum of the
    frequencies of its leaves, which is the sum of the positive counts,
    and in which every internal node stores the sum of its two children;
    and one merge step, on a forest of at least two trees that all
    conserve their frequencies, gives a forest of such trees with the
    same total. *)
Theorem frequency_conservation (frequencies : list Z) (forest : list Node) :
  (1 <= positive_count frequencies)%nat ->
  forallb conserves forest = true ->
  (2 <= List.length forest)%nat ->
  (exists root,
      huffman (create_forest frequencies) = Ok (Some root)
      /\ get_frequency root = leaf_frequencies root
      /\ get_frequency root = positive_total frequencies
      /\ sums_children root = true)
  /\ (exists root,
         Greedy_Alg.build_huffman_tree frequencies = Ok (Some root)
         /\ get_frequency root = leaf_frequencies root
         /\ get_frequency root = positive_total frequencies
         /\ sums_children root = true)
  /\ (exists forest',
         merge forest = Ok forest'
         /\ Greedy_Alg.merge forest = Ok forest'
         /\ forallb conserves forest' = true
         /\ forest_frequency forest' = forest_frequency forest).
Proof.
  intros Hpos Hall Hlen.
  assert (Hne : positive_count frequencies <> 0%nat) by lia.
  split; [|split].
  - destruct (built_tree chr frequencies Hne)
      as (root & Hrun & (_ & Hsum & Hfreq) & _ & _ & Htotal).
    exists root. rewrite create_forest_leaves.
    split; [exact Hrun|]. split; [exact Hfreq|]. split; [congruence|].
    exact Hsum.
  - destruct (built_tree greedy_symbol frequencies Hne)
      as (root & Hrun & (_ & Hsum & Hfreq) & _ & _ & Htotal).
    exists root.
    rewrite greedy_build_huffman_tree_unfold, initialize_forest_leaves.
    split; [exact Hrun|]. split; [exact Hfreq|]. split; [congruence|].
    exact Hsum.
  - destruct (merge_conserves forest Hall Hlen) as (forest' & Hm & Hc & Hf).
    exists forest'. repeat (split; [assumption|]). exact Hf.
Qed.

Lemma frequency_conservation_witness :
  (exists root,
      huffman (create_forest [0; 2; 0; 1; 3]) = Ok (Some root)
      /\ get_frequency root = leaf_frequencies root
      /\ get_frequency root = positive_total [0; 2; 0; 1; 3]
      /\ sums_children root = true)
  /\ (exists root,
         Greedy_Alg.build_huffman_tree [0; 2; 0; 1; 3] = Ok (Some root)
         /\ get_frequency root = leaf_frequencies root
         /\ get_frequency root = positive_total [0; 2; 0; 1; 3]
         /\ sums_children root = true)
  /\ (exists forest',
         merge [leaf "B" 2; leaf "D" 1; leaf "E" 3] = Ok forest'
         /\ Greedy_Alg.merge [leaf "B" 2; leaf "D" 1; leaf "E" 3]
            = Ok forest'
         /\ forallb conserves forest' = true
         /\ forest_frequency forest'
            = forest_frequency [leaf "B" 2; leaf "D" 1; leaf "E" 3]).
Proof.
  apply (frequency_conservation [0; 2; 0; 1; 3]
                                [leaf "B" 2; leaf "D" 1; leaf "E" 3]).
  - vm_compute. lia.
  - reflexivity.
  - simpl. lia.
Defined.

(** C9 (leaf and internal count): with [N] the number of positive counts
    of the frequency list, [huffman] (on the forest of [create_forest])
    and [build_huffman_tree] return [None] when [N = 0], and otherwise a
    tree with [N] leaves and [N - 1] internal nodes in which every
    internal node has exactly two children and every leaf has none. *)
Theorem leaf_and_internal_count (frequencies : list Z) :
  match positive_count frequencies with
  | O =>
      huffman (create_forest frequencies) = Ok None
      /\ Greedy_Alg.build_huffman_tree frequencies = Ok None
  | S n =>
      (exists root,
          huffman (create_forest frequencies) = Ok (Some root)
          /\ count_leaves root = S n
          /\ count_internal root = n
          /\ two_children root = true)
      /\ (exists root,
             Greedy_Alg.build_huffman_tree frequencies = Ok (Some root)
             /\ count_leaves root = S n
             /\ count_internal root = n
             /\ two_children root = true)
  end.
Proof.
  rewrite greedy_build_huffman_tree_unfold.
  rewrite create_forest_leaves, initialize_forest_leaves.
  destruct (positive_count frequencies) as [|n] eqn:E.
  - split; now apply built_none.
  - assert (Hne : positive_count frequencies <> 0%nat) by lia.
    split.
    + destruct (built_tree chr frequencies Hne)
        as (root & Hrun & (Htwo & _) & Hl & Hi & _).
      exists root. repeat split; [exact Hrun | lia | lia | exact Htwo].
    + destruct (built_tree greedy_symbol frequencies Hne)
        as (root & Hrun & (Htwo & _) & Hl & Hi & _).
      exists root. repeat split; [exact Hrun | lia | lia | exact Htwo].
Qed.

(** C10 ([get_smallest] and the order of the forest): on a non-empty
    forest [x :: rest], [get_smallest] (the same in both files) returns
    the node [m] at the lowest index [k] among those of minimal frequency,
    with the forest without index [k], which is one node shorter; an
    iteration of the loop on [x :: y :: rest] removes two such nodes in
    turn and appends the node merged from them at the end; and the initial
    forest has one leaf per positive count, in the order of the indices of
    the frequency list.  Tree construction is a function of the
    frequency list: the model has no other input. *)
Theorem get_smallest_takes_first_minimum
        (x y : Node) (rest : list Node) (frequencies : list Z) :
  (exists k m,
      first_minimum (x :: rest) k m
      /\ get_smallest (x :: rest)
         = Ok (m, firstn k (x :: rest) ++ skipn (S k) (x :: rest))
      /\ Greedy_Alg.get_smallest (x :: rest)
         = Ok (m, firstn k (x :: rest) ++ skipn (S k) (x :: rest))
      /\ List.length (firstn k (x :: rest) ++ skipn (S k) (x :: rest))
         = List.length rest)
  /\ (exists s1 forest1 s2 forest2 k1 k2,
         get_smallest (x :: y :: rest) = Ok (s1, forest1)
         /\ first_minimum (x :: y :: rest) k1 s1
         /\ get_smallest forest1 = Ok (s2, forest2)
         /\ first_minimum forest1 k2 s2
         /\ merge (x :: y :: rest) = Ok (forest2 ++ [merged s1 s2])
         /\ Greedy_Alg.merge (x :: y :: rest)
            = Ok (forest2 ++ [merged s1 s2]))
  /\ create_forest frequencies
     = leaves_of chr (positive_entries frequencies)
  /\ Greedy_Alg.initialize_forest frequencies
     = leaves_of greedy_symbol (positive_entries frequencies).
Proof.
  split; [|split; [|split]].
  - destruct (get_smallest_pop (x :: rest)) as (k & m & Hmin & Hget);
      [discriminate|].
    exists k, m.
    split; [exact Hmin|]. split; [exact Hget|]. split; [exact Hget|].
    pose proof Hmin as (Hk & _).
    assert (Hlen : List.length (x :: rest) = S (List.length rest))
      by reflexivity.
    revert Hk Hlen. generalize (x :: rest) as forest. intros forest Hk Hlen.
    apply firstn_skipn_middle in Hk.
    apply (f_equal (@List.length Node)) in Hk.
    rewrite length_app in *. cbn [List.length] in Hk. lia.
  - destruct (merge_split (x :: y :: rest))
      as (s1 & f1 & s2 & f2 & k1 & k2 & H1 & M1 & H2 & M2 & _ & Hm);
      [simpl; lia|].
    exists s1, f1, s2, f2, k1, k2. repeat (split; [assumption|]). exact Hm.
  - apply create_forest_leaves.
  - apply initialize_forest_leaves.
Qed.

(* ================================================================== *)
(** * Further properties of the two files *)

(** ** Counting *)

Section Counting.

Lemma total_update (l : list Z) (k : nat) (v : Z) :
  (k < List.length l)%nat ->
  total (update l k v) = total l - nth k l 0 + v.
Proof.
  revert k. induction l as [|x l IH]; intros [|k] H; simpl in *; try lia.
  unfold total in *. simpl. rewrite IH by lia. lia.
Qed.

Lemma total_repeat_zero (n : nat) : total (repeat 0 n) = 0.
Proof. induction n as [|n IH]; [reflexivity|]. unfold total in *. simpl. lia. Qed.

Lemma nth_repeat_zero (n i : nat) : nth i (repeat 0 n) 0 = 0.
Proof.
  destruct (nth_in_or_default i (repeat 0 n) 0) as [H| ->]; [|reflexivity].
  now apply repeat_spec in H.
Qed.

(** A loop that adds one to the entry [idx s] for every [s] of [symbols]
    ends with the number of symbols of each index added to each entry. *)
Lemma counting_loop (body : list Z -> string -> result (list Z))
      (idx : string -> nat) (len : nat) (symbols : list string) :
  (forall acc s,
      In s symbols -> List.length acc = len ->
      (idx s < len)%nat
      /\ body acc s = Ok (update acc (idx s) (nth (idx s) acc 0 + 1))) ->
  forall acc,
    List.length acc = len ->
    exists frequencies,
      for_each symbols body acc = Ok frequencies
      /\ List.length frequencies = len
      /\ (forall i, nth i frequencies 0
                    = nth i acc 0
                      + Z.of_nat (count_occ Nat.eq_dec (map idx symbols) i))
      /\ total frequencies = total acc + Z.of_nat (List.length symbols).
Proof.
  induction symbols as [|s symbols IH]; intros Hbody acc Hlen.
  - exists acc. split; [reflexivity|]. split; [exact Hlen|].
    split; [intros i; simpl; lia | simpl; lia].
  - destruct (Hbody acc s (or_introl eq_refl) Hlen) as [Hidx Hstep].
    set (acc1 := update acc (idx s) (nth (idx s) acc 0 + 1)) in *.
    destruct (IH (fun a x H => Hbody a x (or_intror H)) acc1)
      as (fs & Hrun & Hlen' & Hnth & Htot).
    { unfold acc1. now rewrite length_update. }
    exists fs. split; [|split; [exact Hlen'|split]].
    + simpl. rewrite Hstep. exact Hrun.
    + intros i. rewrite Hnth. unfold acc1.
      rewrite nth_update by lia. simpl.
      destruct (Nat.eq_dec (idx s) i) as [->|Hne].
      * rewrite Nat.eqb_refl. lia.
      * destruct (Nat.eqb_spec i (idx s)); [congruence | lia].
    + rewrite Htot. unfold acc1. rewrite total_update by lia.
      simpl List.length. lia.
Qed.

Lemma count_occ_map_index (idx : string -> nat) (symbols : list string)
      (s : string) :
  (forall x, In x symbols -> idx x = idx s -> x = s) ->
  count_occ Nat.eq_dec (map idx symbols) (idx s)
  = count_occ string_dec symbols s.
Proof.
  induction symbols as [|x symbols IH]; intros Hinj; [reflexivity|].
  simpl. rewrite IH by (intros y Hy; apply Hinj; now right).
  destruct (Nat.eq_dec (idx x) (idx s)) as [E|E],
           (string_dec x s) as [E'|E']; try reflexivity.
  - exfalso. apply E'. apply Hinj; [now left | exact E].
  - subst x. congruence.
Qed.


Lemma nat_of_ascii_injective (a b : ascii) :
  nat_of_ascii a = nat_of_ascii b -> a = b.
Proof.
  intros H. rewrite <- (ascii_nat_embedding a), <- (ascii_nat_embedding b).
  now rewrite H.
Qed.

(** The index that [frequency_of_symbols] increments. *)
Let code_point (char : string) : nat :=
  match char with
  | String a _ => nat_of_ascii a
  | EmptyString => 0%nat
  end.

Lemma frequency_of_symbols_loop (message : string) :
  exists frequencies,
    frequency_of_symbols message = Ok frequencies
    /\ List.length frequencies = ASCII_SYMBOLS
    /\ (forall i, nth i frequencies 0
                  = Z.of_nat (count_occ Nat.eq_dec
                                        (map code_point (chars message)) i))
    /\ total frequencies = Z.of_nat (String.length message).
Proof.
  destruct (counting_loop
              (fun frequencies char =>
                 ascii_value <- ord char ;;
                 increment frequencies (Z.to_nat ascii_value))
              code_point ASCII_SYMBOLS (chars message))
    with (acc := repeat 0 ASCII_SYMBOLS)
    as (fs & Hrun & Hlen & Hnth & Htot).
  - intros acc s Hin Hacc. destruct (in_chars _ _ Hin) as [c ->].
    pose proof (nat_ascii_bounded c) as Hc. split; [exact Hc|].
    simpl. rewrite Nat2Z.id. unfold increment, item.
    rewrite (nth_error_nth' acc 0) by (rewrite Hacc; exact Hc).
    reflexivity.
  - apply repeat_length.
  - exists fs. split; [exact Hrun|]. split; [exact Hlen|]. split.
    + intros i. rewrite Hnth, nth_repeat_zero. lia.
    + rewrite Htot, total_repeat_zero.
      assert (E : List.length (chars message) = String.length message).
      { clear. induction message as [|c m IH]; simpl; congruence. }
      rewrite E. lia.
Qed.


Lemma frequency_of_symbols_occurrences (message : string) :
  exists frequencies,
    frequency_of_symbols message = Ok frequencies
    /\ List.length frequencies = ASCII_SYMBOLS
    /\ (forall c, nth (nat_of_ascii c) frequencies 0
                  = occurrences (String c "") message)
    /\ total frequencies = Z.of_nat (String.length message).
Proof.
  destruct (frequency_of_symbols_loop message)
    as (fs & Hrun & Hlen & Hnth & Htot).
  exists fs. split; [exact Hrun|]. split; [exact Hlen|].
  split; [|exact Htot].
  intros c. rewrite Hnth. unfold occurrences. f_equal.
  apply (count_occ_map_index code_point (chars message) (String c "")).
  intros x Hx E. destruct (in_chars _ _ Hx) as [c' ->].
  simpl in E. now rewrite (nat_of_ascii_injective _ _ E).
Qed.

(** *** The 27 counts of [Greedy_Alg.py] *)

Lemma position_slot (acc : list Z) (n : nat) :
  List.length acc = 27%nat ->
  position acc (Z.of_nat n - 65)
  = if ((38 <=? n) && (n <=? 91))%nat
    then Ok (if (65 <=? n)%nat then (n - 65)%nat else (n + 27 - 65)%nat)
    else Raise IndexError.
Proof.
  intros Hlen. unfold position. rewrite Hlen.
  change (Z.of_nat 27) with 27.
  destruct (Nat.leb_spec 38 n) as [H38|H38];
    destruct (Nat.leb_spec n 91) as [H91|H91];
    destruct (Nat.leb_spec 65 n) as [H65|H65];
    destruct (Z.leb_spec 0 (Z.of_nat n - 65)) as [A|A];
    destruct (Z.ltb_spec (Z.of_nat n - 65) 27) as [B|B];
    destruct (Z.leb_spec (Z.opp 27) (Z.of_nat n - 65)) as [C|C];
    destruct (Z.ltb_spec (Z.of_nat n - 65) 0) as [D|D];
    cbn [andb]; try lia; try reflexivity;
    apply f_equal; lia.
Qed.

Lemma greedy_increment_position (acc : list Z) (z : Z) (k : nat) :
  position acc z = Ok k -> (k < List.length acc)%nat ->
  Greedy_Alg.increment acc z = Ok (update acc k (nth k acc 0 + 1)).
Proof.
  intros Hpos Hk. unfold Greedy_Alg.increment, getitem, setitem.
  rewrite Hpos. simpl. unfold item.
  now rewrite (nth_error_nth' acc 0 Hk).
Qed.

Lemma greedy_increment_error (acc : list Z) (z : Z) :
  position acc z = Raise IndexError ->
  Greedy_Alg.increment acc z = Raise IndexError.
Proof.
  intros Hpos. unfold Greedy_Alg.increment, getitem. now rewrite Hpos.
Qed.

Lemma space_code_point (c : ascii) :
  String.eqb (String c "") " " = (nat_of_ascii c =? 32)%nat.
Proof.
  destruct (String.eqb_spec (String c "") " ") as [E|E].
  - injection E as ->. reflexivity.
  - destruct (Nat.eqb_spec (nat_of_ascii c) 32) as [H|H]; [|reflexivity].
    exfalso. apply E. f_equal.
    apply nat_of_ascii_injective. exact H.
Qed.

(** One step of the loop of [count_frequencies]. *)
Lemma count_frequencies_step (acc : list Z) (c : ascii) :
  List.length acc = 27%nat ->
  (if String.eqb (String c "") " " then Greedy_Alg.increment acc 26
   else index <- Greedy_Alg.letter_index (String c "") ;;
        Greedy_Alg.increment acc index)
  = if countable (String c "")
    then Ok (update acc (slot (String c ""))
                    (nth (slot (String c "")) acc 0 + 1))
    else Raise IndexError.
Proof.
  intros Hlen. rewrite space_code_point. unfold countable, slot.
  set (n := nat_of_ascii c).
  destruct (Nat.eqb_spec n 32) as [E|E]; cbn [orb].
  - apply (greedy_increment_position acc 26 26); [|lia].
    unfold position. now rewrite Hlen.
  - change (Greedy_Alg.letter_index (String c ""))
      with (@Ok Z (Z.of_nat n - 65)).
    cbn [bind]. pose proof (position_slot acc n Hlen) as Hpos.
    destruct ((38 <=? n) && (n <=? 91))%nat eqn:Hr.
    + apply greedy_increment_position; [exact Hpos|].
      apply andb_prop in Hr as [H1 H2].
      apply Nat.leb_le in H1, H2.
      destruct (Nat.leb_spec 65 n); lia.
    + now apply greedy_increment_error.
Qed.

Lemma countable_slot (char : string) :
  countable char = true -> (slot char < 27)%nat.
Proof.
  destruct char as [|c [|]]; try discriminate. unfold countable, slot.
  set (n := nat_of_ascii c).
  destruct (Nat.eqb_spec n 32); cbn [orb]; [lia|]. intros H.
  apply andb_prop in H as [H1 H2]. apply Nat.leb_le in H1, H2.
  destruct (Nat.leb_spec 65 n); lia.
Qed.

(** A character that cannot be counted ends the loop in [IndexError]. *)
Lemma count_frequencies_error (message : string) :
  forall acc,
    List.length acc = 27%nat ->
    forallb countable (chars message) = false ->
    for_each (chars message)
      (fun frequencies char =>
         if String.eqb char " " then Greedy_Alg.increment frequencies 26
         else index <- Greedy_Alg.letter_index char ;;
              Greedy_Alg.increment frequencies index)
      acc
    = Raise IndexError.
Proof.
  induction message as [|c message IH]; intros acc Hlen Hall;
    [discriminate|].
  cbn [chars forallb] in Hall. cbn [chars for_each].
  rewrite count_frequencies_step by exact Hlen.
  destruct (countable (String c "")) eqn:Hc; [|reflexivity].
  cbn [andb] in Hall. cbn [bind]. apply IH; [|exact Hall].
  now rewrite length_update.
Qed.

(** The characters that can be counted are counted by slot. *)
Lemma count_frequencies_slots (message : string) :
  forallb countable (chars message) = true ->
  exists frequencies,
    Greedy_Alg.count_frequencies message = Ok frequencies
    /\ List.length frequencies = 27%nat
    /\ (forall i, nth i frequencies 0
                  = Z.of_nat (count_occ Nat.eq_dec
                                        (map slot (chars message)) i))
    /\ total frequencies = Z.of_nat (String.length message).
Proof.
  intros Hall. rewrite forallb_forall in Hall.
  destruct (counting_loop
              (fun frequencies char =>
                 if String.eqb char " "
                 then Greedy_Alg.increment frequencies 26
                 else index <- Greedy_Alg.letter_index char ;;
                      Greedy_Alg.increment frequencies index)
              slot 27%nat (chars message))
    with (acc := repeat 0 27%nat)
    as (fs & Hrun & Hlen & Hnth & Htot).
  - intros acc s Hin Hacc. destruct (in_chars _ _ Hin) as [c ->].
    split; [apply countable_slot; auto|].
    rewrite count_frequencies_step by exact Hacc.
    now rewrite (Hall _ Hin).
  - reflexivity.
  - exists fs. split; [exact Hrun|]. split; [exact Hlen|]. split.
    + intros i. rewrite Hnth, (nth_repeat_zero 27). lia.
    + rewrite Htot, (total_repeat_zero 27).
      assert (E : List.length (chars message) = String.length message).
      { clear. induction message as [|c m IH]; simpl; congruence. }
      rewrite E. lia.
Qed.

Lemma alphabet_slot (i : nat) :
  (i < 27)%nat ->
  countable (greedy_symbol i) = true /\ slot (greedy_symbol i) = i.
Proof.
  intros H. do 27 (destruct i as [|i]; [now split|]). lia.
Qed.

Lemma in_alphabet_countable (char : string) :
  in_alphabet char = true -> countable char = true.
Proof.
  intros H. apply in_alphabet_index in H as (i & Hi & ->).
  now apply alphabet_slot.
Qed.

End Counting.

(** X1 ([frequency_of_symbols]): for every message the counter returns 256
    counts; the count at the code point of a character is the number of
    its occurrences in the message, so that the counts of an empty
    message are all zero, and the counts add up to the length of the
    message. *)
Theorem frequency_of_symbols_exact (message : string) :
  exists frequencies,
    frequency_of_symbols message = Ok frequencies
    /\ List.length frequencies = 256%nat
    /\ (forall c, nth (nat_of_ascii c) frequencies 0
                  = occurrences (String c "") message)
    /\ total frequencies = Z.of_nat (String.length message).
Proof. apply frequency_of_symbols_occurrences. Qed.





(** X3 ([count_frequencies]): the counter of [Greedy_Alg.py] succeeds
    exactly on the messages made of spaces and of the code points 38 to
    91.  It then returns 27 counts that add up to the length of the
    message, where entry [i] counts the characters whose index is [i],
    and a character before ["A"] is counted at its negative index from
    the end: ["@"] with the space, ["?"] with ["Z"].  On any other
    message it raises [IndexError]. *)
Theorem count_frequencies_by_slot (message : string) :
  if forallb countable (chars message)
  then exists frequencies,
      Greedy_Alg.count_frequencies message = Ok frequencies
      /\ List.length frequencies = 27%nat
      /\ (forall i, nth i frequencies 0
                    = Z.of_nat (count_occ Nat.eq_dec
                                          (map slot (chars message)) i))
      /\ total frequencies = Z.of_nat (String.length message)
  else Greedy_Alg.count_frequencies message = Raise IndexError.
Proof.
  destruct (forallb countable (chars message)) eqn:Hall.
  - now apply count_frequencies_slots.
  - now apply count_frequencies_error.
Qed.

(** X4 ([count_frequencies]): on a message of capital letters and spaces
    the counter returns 27 counts, and the count at index [i] is the
    number of occurrences of the symbol of index [i]: ["A"] to ["Z"] at 0
    to 25 and the space at 26. *)
Theorem count_frequencies_exact (message : string) :
  forallb in_alphabet (chars message) = true ->
  exists frequencies,
    Greedy_Alg.count_frequencies message = Ok frequencies
    /\ List.length frequencies = 27%nat
    /\ forall i, (i < 27)%nat ->
         nth i frequencies 0 = occurrences (greedy_symbol i) message.
Proof.
  intros Hall. rewrite forallb_forall in Hall.
  destruct (count_frequencies_slots message)
    as (fs & Hrun & Hlen & Hnth & _).
  { apply forallb_forall. intros x Hx.
    apply in_alphabet_countable. auto. }
  exists fs. split; [exact Hrun|]. split; [exact Hlen|].
  intros i Hi. rewrite Hnth. unfold occurrences. f_equal.
  destruct (alphabet_slot i Hi) as [_ Hslot].
  rewrite <- Hslot at 1.
  apply count_occ_map_index. intros x Hx E.
  apply Hall, in_alphabet_index in Hx as (j & Hj & ->).
  destruct (alphabet_slot j Hj) as [_ Hslotj]. congruence.
Qed.

Lemma count_frequencies_exact_witness :
  exists frequencies,
    Greedy_Alg.count_frequencies "HELLO WORLD" = Ok frequencies
    /\ List.length frequencies = 27%nat
    /\ forall i, (i < 27)%nat ->
         nth i frequencies 0 = occurrences (greedy_symbol i) "HELLO WORLD".
Proof.
  apply (count_frequencies_exact "HELLO WORLD"). reflexivity.
Defined.

(** ** The loop of the builders on any forest *)

Section AnyForest.

(** One iteration: the two nodes removed and the rest are the forest, the
    first is not heavier than the second, and the second is not heavier
    than any node that stays. *)
Lemma merge_step (forest : list Node) :
  (2 <= List.length forest)%nat ->
  exists s1 s2 rest,
    merge forest = Ok (rest ++ [merged s1 s2])
    /\ Permutation forest (s1 :: s2 :: rest)
    /\ get_frequency s1 <= get_frequency s2
    /\ Forall (fun y => get_frequency s2 <= get_frequency y) rest.
Proof.
  intros Hlen.
  destruct (merge_split forest Hlen)
    as (s1 & f1 & s2 & f2 & k1 & k2 & Hg1 & M1 & Hg2 & M2 & Hperm & Hm).
  exists s1, s2, f2. split; [exact Hm|]. split; [exact Hperm|].
  destruct M1 as (_ & Hle1 & _). destruct M2 as (Hk2 & Hle2 & _).
  destruct (get_smallest_split f1) as (k & x & l1 & l2 & Hf1 & _ & _ & Hg).
  { intros ->. destruct k2; discriminate. }
  rewrite Hg in Hg2. injection Hg2 as -> <-.
  split.
  - assert (Hin : In s2 forest).
    { apply (Permutation_in _ (Permutation_sym Hperm)). right. now left. }
    apply In_nth_error in Hin as [j Hj]. eauto.
  - apply Forall_forall. intros y Hy.
    assert (Hin : In y f1).
    { rewrite Hf1. apply in_app_or in Hy as [Hy|Hy];
        apply in_or_app; [left | right; right]; exact Hy. }
    apply In_nth_error in Hin as [j Hj]. eauto.
Qed.

(** The loop ends with one tree, and what an iteration keeps of the
    forest holds of that tree. *)
Lemma while_loop_keeps (I : list Node -> Prop) :
  (forall forest s1 s2 rest,
      I forest -> Permutation forest (s1 :: s2 :: rest) ->
      get_frequency s1 <= get_frequency s2 ->
      I (rest ++ [merged s1 s2])) ->
  forall fuel forest,
    I forest ->
    (1 <= List.length forest <= S fuel)%nat ->
    exists root, while_loop fuel forest = Ok [root] /\ I [root].
Proof.
  intros Hstep. induction fuel as [|fuel IH]; intros forest Hinv Hlen.
  - destruct forest as [|root [|]]; simpl in Hlen; try lia.
    exists root. now split.
  - destruct (Nat.ltb_spec 1 (List.length forest)) as [Hgt|Hle].
    + destruct (merge_step forest) as (s1 & s2 & rest & Hm & Hperm & Hle & _);
        [lia|].
      pose proof (Permutation_length Hperm) as Hl. simpl in Hl.
      destruct (IH (rest ++ [merged s1 s2])) as (root & Hrun & Hroot).
      * eapply Hstep; eassumption.
      * rewrite length_app. simpl. lia.
      * exists root. split; [|exact Hroot].
        simpl. apply Nat.ltb_lt in Hgt. rewrite Hgt, Hm. exact Hrun.
    + destruct forest as [|root [|]]; simpl in Hlen, Hle; try lia.
      exists root. now split.
Qed.

Lemma huffman_keeps (I : list Node -> Prop) (forest : list Node) :
  (forall forest s1 s2 rest,
      I forest -> Permutation forest (s1 :: s2 :: rest) ->
      get_frequency s1 <= get_frequency s2 ->
      I (rest ++ [merged s1 s2])) ->
  forest <> [] -> I forest ->
  exists root, huffman forest = Ok (Some root) /\ I [root].
Proof.
  intros Hstep Hne Hinv.
  destruct (while_loop_keeps I Hstep (List.length forest) forest Hinv)
    as (root & Hrun & Hroot).
  { destruct forest; [congruence | simpl; lia]. }
  exists root. split; [|exact Hroot].
  unfold huffman. destruct forest; [congruence|].
  simpl Nat.eqb. cbv iota. rewrite Hrun. reflexivity.
Qed.

Lemma total_permutation (l l' : list Z) :
  Permutation l l' -> total l = total l'.
Proof. apply sum_permutation. Qed.

Lemma forest_root_frequency_step (forest rest : list Node) (s1 s2 : Node) :
  Permutation forest (s1 :: s2 :: rest) ->
  forest_root_frequency (rest ++ [merged s1 s2])
  = forest_root_frequency forest.
Proof.
  intros Hperm. unfold forest_root_frequency.
  rewrite (total_permutation _ _ (Permutation_map get_frequency Hperm)).
  rewrite (total_permutation
             _ _ (Permutation_map
                    get_frequency
                    (Permutation_sym
                       (Permutation_cons_append rest (merged s1 s2))))).
  unfold total. simpl. lia.
Qed.

Lemma forest_leaves_step (forest rest : list Node) (s1 s2 : Node) :
  Permutation forest (s1 :: s2 :: rest) ->
  forest_leaves (rest ++ [merged s1 s2]) = forest_leaves forest.
Proof.
  intros Hperm.
  rewrite (forest_leaves_permutation _ _ Hperm).
  rewrite (forest_leaves_permutation
             _ _ (Permutation_sym
                    (Permutation_cons_append rest (merged s1 s2)))).
  unfold forest_leaves. simpl. lia.
Qed.

Lemma lighter_left_step (forest rest : list Node) (s1 s2 : Node) :
  forallb lighter_left forest = true ->
  Permutation forest (s1 :: s2 :: rest) ->
  get_frequency s1 <= get_frequency s2 ->
  forallb lighter_left (rest ++ [merged s1 s2]) = true.
Proof.
  intros Hall Hperm Hle.
  apply (forallb_permutation _ _ _ Hperm) in Hall. simpl in Hall.
  apply andb_prop in Hall as [H1 Hall]. apply andb_prop in Hall as [H2 Hall].
  rewrite forallb_app, Hall. simpl. rewrite H1, H2.
  apply Z.leb_le in Hle. now rewrite Hle.
Qed.

End AnyForest.

(** X5 ([get_smallest]): on the empty forest [get_smallest] raises
    [IndexError]; on any other forest it returns a node and the rest of
    the forest, which together are the forest it was given, and no node of
    the forest has a smaller frequency than the node returned. *)
Theorem get_smallest_removes_a_minimum (forest : list Node) :
  match forest with
  | [] => get_smallest forest = Raise IndexError
  | _ :: _ =>
      exists x rest,
        get_smallest forest = Ok (x, rest)
        /\ Permutation forest (x :: rest)
        /\ Forall (fun y => get_frequency x <= get_frequency y) forest
  end.
Proof.
  destruct forest as [|x0 forest]; [reflexivity|].
  destruct (get_smallest_split (x0 :: forest))
    as (k & x & l1 & l2 & Hf & _ & (_ & Hle & _) & Hget); [discriminate|].
  exists x, (l1 ++ l2). split; [exact Hget|]. split.
  - rewrite Hf. symmetry. apply Permutation_middle.
  - apply Forall_forall. intros y Hy.
    apply In_nth_error in Hy as [j Hj]. eauto.
Qed.

Lemma huffman_any_forest (forest : list Node) :
  match forest with
  | [] => huffman forest = Ok None
  | _ :: _ =>
      exists root,
        huffman forest = Ok (Some root)
        /\ get_frequency root = forest_root_frequency forest
        /\ count_leaves root = forest_leaves forest
        /\ Permutation (symbols_of root) (forest_symbols forest)
  end.
Proof.
  destruct forest as [|x forest]; [reflexivity|].
  set (f := x :: forest).
  destruct (huffman_keeps
              (fun g => forest_root_frequency g = forest_root_frequency f
                        /\ forest_leaves g = forest_leaves f) f)
    as (root & Hrun & Hfreq & Hleaves).
  - intros g s1 s2 rest [H1 H2] Hperm _.
    rewrite (forest_root_frequency_step _ _ _ _ Hperm).
    rewrite (forest_leaves_step _ _ _ _ Hperm). now split.
  - discriminate.
  - now split.
  - exists root. split; [exact Hrun|].
    change (forest_root_frequency [root]) with (get_frequency root + 0)
      in Hfreq.
    change (forest_leaves [root]) with (count_leaves root + 0)%nat
      in Hleaves.
    split; [lia|]. split; [lia|]. now apply huffman_symbols.
Qed.

(** X6 ([huffman] on any forest): [huffman] returns [None] on the empty
    forest and a tree on any other forest, whatever its trees are.  The
    root of the tree stores the sum of the frequencies stored at the roots
    of the forest, and the leaves of the tree are the leaves of the
    forest: as many, with the same symbols. *)
Theorem huffman_on_any_forest (forest : list Node) :
  match forest with
  | [] => huffman forest = Ok None
  | _ :: _ =>
      exists root,
        huffman forest = Ok (Some root)
        /\ get_frequency root = forest_root_frequency forest
        /\ count_leaves root = forest_leaves forest
        /\ Permutation (symbols_of root) (forest_symbols forest)
  end.
Proof. apply huffman_any_forest. Qed.

(** X7 (the order of the children): in every node that the loop builds the
    left child, removed first, is not heavier than the right child.  So
    when this holds inside the trees of a non-empty forest, as it does for
    the forests of leaves that [create_forest] and [initialize_forest]
    return, it holds at every internal node of the tree that [huffman]
    returns. *)
Theorem huffman_puts_the_lighter_child_left (forest : list Node) :
  forest <> [] ->
  forallb lighter_left forest = true ->
  exists root,
    huffman forest = Ok (Some root) /\ lighter_left root = true.
Proof.
  intros Hne Hall.
  destruct (huffman_keeps (fun g => forallb lighter_left g = true) forest)
    as (root & Hrun & Hroot).
  - intros g s1 s2 rest Hg Hperm Hle. now apply (lighter_left_step g).
  - exact Hne.
  - exact Hall.
  - exists root. split; [exact Hrun|].
    simpl in Hroot. now rewrite andb_true_r in Hroot.
Qed.

Lemma huffman_puts_the_lighter_child_left_witness :
  exists root,
    huffman (create_forest [0; 2; 0; 1; 3]) = Ok (Some root)
    /\ lighter_left root = true.
Proof.
  apply (huffman_puts_the_lighter_child_left (create_forest [0; 2; 0; 1; 3])).
  - discriminate.
  - reflexivity.
Defined.

(** ** The tables *)

Section Tables.

Lemma string_length_append (a b : string) :
  String.length (a ++ b) = (String.length a + String.length b)%nat.
Proof. induction a as [|c a IH]; simpl; congruence. Qed.

(** A code is no longer than the code the traversal started with plus
    one bit per internal node. *)
Lemma leaf_codes_depth (n : Node) :
  forall code s c,
    In (s, c) (leaf_codes n code) ->
    (String.length c <= String.length code + count_internal n)%nat.
Proof.
  induction n as [f s l r IHl IHr] using Node_induction.
  intros code s' c H. destruct s as [symbol|].
  - destruct H as [H|[]]. injection H as _ <-. simpl. lia.
  - simpl in H. apply in_app_or in H as [H|H].
    + destruct l as [a|]; [|destruct H].
      apply (IHl a eq_refl) in H. rewrite string_length_append in H.
      simpl in *. lia.
    + destruct r as [b|]; [|destruct H].
      apply (IHr b eq_refl) in H. rewrite string_length_append in H.
      simpl in *. destruct l; lia.
Qed.

Lemma build_encoding_table_contains (root : Node) (s : string) :
  dict_contains (build_encoding_table (Some root)) s = true
  <-> In s (symbols_of root).
Proof.
  unfold dict_contains. split.
  - destruct (dict_get (build_encoding_table (Some root)) s) as [c|] eqn:E;
      [|discriminate].
    intros _. apply build_encoding_table_binding in E.
    now apply (in_map fst) in E.
  - intros H.
    destruct (dict_get (build_encoding_table (Some root)) s) eqn:E;
      [reflexivity|].
    exfalso. revert E. rewrite build_encoding_table_assign.
    apply assign_binds. now left.
Qed.

Lemma chr_injective (i j : nat) :
  (i < 256)%nat -> (j < 256)%nat -> chr i = chr j -> i = j.
Proof.
  intros Hi Hj E. injection E as E.
  apply (f_equal nat_of_ascii) in E.
  now rewrite !nat_ascii_embedding in E.
Qed.

(** The reverse of a table with distinct keys and distinct codes is its
    inverse. *)
Lemma build_reverse_table_inverse (table : dict) :
  unique_keys table ->
  (forall a b c,
      dict_get table a = Some c -> dict_get table b = Some c -> a = b) ->
  forall s c,
    dict_get (build_reverse_table table) c = Some s
    <-> dict_get table s = Some c.
Proof.
  intros Hkeys Hinj s c.
  assert (Hsound : forall s', dict_get (build_reverse_table table) c = Some s'
                              -> dict_get table s' = Some c).
  { intros s' H. apply reverse_loop_binding in H as [H|H]; [|discriminate].
    now apply in_dict_get. }
  split; [apply Hsound|]. intros H.
  destruct (dict_get (build_reverse_table table) c) as [s'|] eqn:E.
  - f_equal. apply (Hinj s' s c); auto.
  - exfalso. revert E. apply reverse_loop_binds. left.
    apply dict_get_in in H. now apply (in_map snd) in H.
Qed.

Lemma build_encoding_table_distinct_codes (root : option Node)
      (a b c : string) :
  dict_get (build_encoding_table root) a = Some c ->
  dict_get (build_encoding_table root) b = Some c ->
  a = b.
Proof.
  destruct root as [n|]; [|discriminate]. intros Ha Hb.
  apply build_encoding_table_binding in Ha, Hb.
  destruct (string_dec a b) as [E|Hne]; [exact E|].
  destruct (leaf_codes_distinct n _ _ _ _ _ Ha Hb Hne) as [H _].
  exfalso. apply H, is_prefix_refl.
Qed.

End Tables.

(** X8 ([build_encoding_table] of [Huffman.py]): the keys of the table are
    the symbols at the leaves of the tree, no more and no fewer, and the
    code of a symbol is the sequence of branches, ["0"] for left and ["1"]
    for right, from the root to a leaf with that symbol. *)
Theorem table_keys_are_the_leaf_symbols (root : Node) (s : string) :
  (dict_contains (build_encoding_table (Some root)) s = true
   <-> In s (symbols_of root))
  /\ (forall c, dict_get (build_encoding_table (Some root)) s = Some c ->
                In (s, c) (leaf_codes root "")
                /\ is_bitstring c = true).
Proof.
  split; [apply build_encoding_table_contains|].
  intros c H. apply build_encoding_table_binding in H. split; [exact H|].
  now apply (leaf_codes_bits root ""%string s c).
Qed.

(** X9 (from counts to table, [Huffman.py]): for a list of at most 256
    counts, the table derived from the tree that [huffman] builds on the
    forest of [create_forest] has a code for the character of code point
    [i] exactly when the count at index [i] is positive. *)
Theorem table_covers_the_positive_counts (frequencies : list Z) :
  (List.length frequencies <= 256)%nat ->
  exists root,
    huffman (create_forest frequencies) = Ok root
    /\ forall i, (i < List.length frequencies)%nat ->
         dict_contains (build_encoding_table root) (chr i)
         = (nth i frequencies 0 >? 0).
Proof.
  intros Hlen.
  assert (Hpos : forall i, (i < List.length frequencies)%nat ->
                   (In (chr i)
                       (forest_symbols (create_forest frequencies))
                    <-> (nth i frequencies 0 >? 0) = true)).
  { intros i Hi. rewrite create_forest_leaves, forest_symbols_leaves.
    rewrite in_map_iff. split.
    - intros ([j f] & E & Hin). simpl in E.
      apply in_positive_entries in Hin as [Hn Hf].
      assert (Hj : (j < List.length frequencies)%nat)
        by (apply nth_error_Some; congruence).
      apply chr_injective in E; [subst j | lia | lia].
      rewrite (nth_error_nth _ _ 0 Hn). now apply Z.gtb_lt.
    - intros H. apply Z.gtb_lt in H.
      exists (i, nth i frequencies 0). split; [reflexivity|].
      apply in_positive_entries. split; [|exact H].
      now apply nth_error_nth'. }
  pose proof (huffman_any_forest (create_forest frequencies)) as Hrun.
  destruct (create_forest frequencies) as [|x forest] eqn:Hforest.
  - exists None. split; [exact Hrun|]. intros i Hi.
    destruct (nth i frequencies 0 >? 0) eqn:E; [|reflexivity].
    apply (Hpos i Hi) in E. destruct E.
  - destruct Hrun as (root & Hrun & _ & _ & Hsym).
    exists (Some root). split; [exact Hrun|]. intros i Hi.
    apply eq_true_iff_eq.
    rewrite build_encoding_table_contains, <- (Hpos i Hi).
    split; apply Permutation_in; [exact Hsym | symmetry; exact Hsym].
Qed.

Lemma table_covers_the_positive_counts_witness :
  exists root,
    huffman (create_forest [0; 2; 0; 1; 3]) = Ok root
    /\ forall i, (i < List.length [0; 2; 0; 1; 3])%nat ->
         dict_contains (build_encoding_table root) (chr i)
         = (nth i [0; 2; 0; 1; 3] 0 >? 0).
Proof.
  apply (table_covers_the_positive_counts [0; 2; 0; 1; 3]). simpl. lia.
Defined.

(** X13 ([build_reverse_table]): for the table derived from any tree, or
    from no tree, the reverse table is the exact inverse: it maps a
    bitstring to a symbol exactly when the table maps that symbol to that
    bitstring. *)
Theorem reverse_table_is_the_inverse (root : option Node) (s c : string) :
  dict_get (build_reverse_table (build_encoding_table root)) c = Some s
  <-> dict_get (build_encoding_table root) s = Some c.
Proof.
  apply build_reverse_table_inverse.
  - apply build_encoding_table_unique_keys.
  - apply build_encoding_table_distinct_codes.
Qed.

Lemma built_tree_internal (symbol_of : nat -> string)
      (frequencies : list Z) (root : Node) :
  huffman (leaves_of symbol_of (positive_entries frequencies))
  = Ok (Some root) ->
  S (count_internal root) = positive_count frequencies.
Proof.
  intros Hrun.
  destruct (Nat.eq_dec (positive_count frequencies) 0) as [Hz|Hne].
  - rewrite (built_none symbol_of frequencies Hz) in Hrun. discriminate.
  - destruct (built_tree symbol_of frequencies Hne)
      as (root' & Hrun' & _ & _ & Hi & _).
    rewrite Hrun in Hrun'. now injection Hrun' as ->.
Qed.

(** X10 (length of the codes): with [N] the number of positive counts, no
    code of the table derived from the tree that [huffman] builds, and no
    entry of the table derived from the tree that [build_huffman_tree]
    builds, has [N] bits or more. *)
Theorem codes_are_shorter_than_the_alphabet
        (frequencies gfrequencies : list Z) (root groot : Node)
        (s c : string) (gtable : list string) (gc : string) :
  huffman (create_forest frequencies) = Ok (Some root) ->
  dict_get (build_encoding_table (Some root)) s = Some c ->
  Greedy_Alg.build_huffman_tree gfrequencies = Ok (Some groot) ->
  Greedy_Alg.build_encoding_table (Some groot) = Ok gtable ->
  In gc gtable ->
  (String.length c < positive_count frequencies)%nat
  /\ (String.length gc < positive_count gfrequencies)%nat.
Proof.
  intros Hrun Hc Hgrun Hgtable Hgc. split.
  - rewrite create_forest_leaves in Hrun.
    apply built_tree_internal in Hrun.
    apply build_encoding_table_binding, leaf_codes_depth in Hc.
    simpl in Hc. lia.
  - rewrite greedy_build_huffman_tree_unfold, initialize_forest_leaves
      in Hgrun.
    apply built_tree_internal in Hgrun.
    unfold Greedy_Alg.build_encoding_table in Hgtable. cbn [Greedy_Alg.traverse] in Hgtable.
    rewrite greedy_traverse_node_assign in Hgtable.
    destruct (greedy_assign_origin _ _ _ gc Hgtable Hgc) as [H|H].
    + apply repeat_spec in H. subst gc. simpl. lia.
    + apply in_map_iff in H as ([s' c'] & E & Hin). simpl in E. subst c'.
      apply leaf_codes_depth in Hin. simpl in Hin. lia.
Qed.

Lemma codes_are_shorter_than_the_alphabet_witness :
  (String.length "10" < positive_count small_counts)%nat
  /\ (String.length "11" < positive_count small_counts)%nat.
Proof.
  apply (codes_are_shorter_than_the_alphabet
           small_counts small_counts small_tree greedy_small_tree
           (chr 3) "10" greedy_small_table "11").
  - reflexivity.
  - reflexivity.
  - reflexivity.
  - reflexivity.
  - vm_compute. auto.
Defined.

(** ** The encoder of [Huffman.py] *)

Lemma uncovered_symbol (table : dict) (symbols : list string) :
  forallb (dict_contains table) symbols = false ->
  Exists (fun char => dict_get table char = None) symbols.
Proof.
  induction symbols as [|x symbols IH]; [discriminate|].
  simpl. unfold dict_contains at 1.
  destruct (dict_get table x) eqn:E; simpl; intros H.
  - right. auto.
  - now left.
Qed.

Lemma encode_with_table_cases (message : string) (table : dict) :
  if forallb (dict_contains table) (chars message)
  then exists codes,
      Forall2 (fun char code => dict_get table char = Some code)
              (chars message) codes
      /\ encode_with_table message table = Ok (String.concat "" codes)
  else encode_with_table message table = Raise KeyError.
Proof.
  destruct (forallb (dict_contains table) (chars message)) eqn:Hall.
  - apply forallb_contains_covered, covered_codes in Hall as [codes H].
    exists codes. split; [exact H|]. now apply encode_with_table_codes.
  - now apply encode_with_table_key_error, uncovered_symbol.
Qed.

(** X11 ([encode_with_table]): when every character of the message is a
    key of the table, the encoder returns the concatenation of their
    codes in message order; otherwise it raises [KeyError].  This holds
    for any table, derived from a tree or not. *)
Theorem encode_with_table_contract (message : string) (table : dict) :
  if forallb (dict_contains table) (chars message)
  then exists codes,
      Forall2 (fun char code => dict_get table char = Some code)
              (chars message) codes
      /\ encode_with_table message table = Ok (String.concat "" codes)
  else encode_with_table message table = Raise KeyError.
Proof. apply encode_with_table_cases. Qed.

Lemma Forall2_functional (table : dict) (symbols codes codes' : list string) :
  Forall2 (fun char code => dict_get table char = Some code) symbols codes ->
  Forall2 (fun char code => dict_get table char = Some code) symbols codes' ->
  codes = codes'.
Proof.
  intros H. revert codes'.
  induction H as [|x c symbols codes Hc _ IH]; intros codes' H';
    inversion H'; subst; [reflexivity|].
  f_equal; [congruence | auto].
Qed.

(** X12 ([encode_with_table] and concatenation): encoding the
    concatenation of two messages is encoding the first and then the
    second and concatenating the results, and it raises [KeyError] when
    either does. *)
Theorem encode_with_table_append (m1 m2 : string) (table : dict) :
  encode_with_table (m1 ++ m2) table
  = (e1 <- encode_with_table m1 table ;;
     e2 <- encode_with_table m2 table ;;
     Ok (e1 ++ e2)%string).
Proof.
  pose proof (encode_with_table_cases m1 table) as H1.
  pose proof (encode_with_table_cases m2 table) as H2.
  pose proof (encode_with_table_cases (m1 ++ m2) table) as H.
  rewrite chars_append, forallb_app in H.
  destruct (forallb (dict_contains table) (chars m1)).
  - destruct H1 as (c1 & F1 & ->). cbn [bind andb] in *.
    destruct (forallb (dict_contains table) (chars m2)).
    + destruct H2 as (c2 & F2 & ->). destruct H as (c & F & ->).
      cbn [bind]. f_equal.
      rewrite <- concat_nil_app. f_equal.
      apply (Forall2_functional table (chars m1 ++ chars m2)); [exact F|].
      now apply Forall2_app.
    + now rewrite H, H2.
  - cbn [andb] in H. now rewrite H, H1.
Qed.

(** ** The decoder of [Huffman.py] *)

Lemma decode_loop_prefix (reverse_table : dict) (bits pre : list string) :
  forall decoded current_bits,
    fold_left (decode_step reverse_table) bits
              (pre ++ decoded, current_bits)
    = (pre ++ fst (fold_left (decode_step reverse_table) bits
                             (decoded, current_bits)),
       snd (fold_left (decode_step reverse_table) bits
                      (decoded, current_bits))).
Proof.
  induction bits as [|bit bits IH]; intros decoded current_bits.
  - reflexivity.
  - simpl.
    destruct (dict_get reverse_table (current_bits ++ bit)) as [symbol|].
    + rewrite <- app_assoc. apply IH.
    + apply IH.
Qed.

Lemma decode_with_table_unfold (encoded : string) (reverse_table : dict) :
  decode_with_table encoded reverse_table
  = String.concat ""
      (fst (fold_left (decode_step reverse_table) (chars encoded)
                      ([], ""%string))).
Proof.
  unfold decode_with_table.
  now destruct (fold_left (decode_step reverse_table) (chars encoded)
                          ([], ""%string)).
Qed.

(** X14 (decoding after an encoding): with a table that is a prefix code,
    derived from a tree or not, the decoder turns the encoding of a
    message, followed by any string [rest], into the message followed by
    what it decodes from [rest]; with nothing after it, the encoding
    decodes to the message. *)
Theorem decode_with_table_resumes (table : dict) (message rest : string) :
  unique_keys table -> prefix_code table ->
  forallb (dict_contains table) (chars message) = true ->
  exists encoded,
    encode_with_table message table = Ok encoded
    /\ decode_with_table (encoded ++ rest) (build_reverse_table table)
       = (message
          ++ decode_with_table rest (build_reverse_table table))%string
    /\ decode_with_table encoded (build_reverse_table table) = message.
Proof.
  intros Hkeys Hcode Hcov.
  apply forallb_contains_covered in Hcov.
  destruct (covered_codes table _ Hcov) as [codes Hcodes].
  exists (String.concat "" codes).
  split; [now apply encode_with_table_codes|].
  assert (Hrest : forall r,
             decode_with_table (String.concat "" codes ++ r)
                               (build_reverse_table table)
             = (message
                ++ decode_with_table r (build_reverse_table table))%string).
  { intros r. rewrite !decode_with_table_unfold.
    rewrite (decode_codes table Hkeys Hcode _ _ r Hcodes []).
    pose proof (decode_loop_prefix (build_reverse_table table) (chars r)
                                   (chars message) [] ""%string) as Hp.
    rewrite app_nil_r in Hp. cbn [app]. rewrite Hp. cbn [fst].
    now rewrite concat_nil_app, concat_chars. }
  split; [apply Hrest|].
  specialize (Hrest ""%string). rewrite append_nil_r in Hrest.
  rewrite Hrest. apply append_nil_r.
Qed.

Lemma decode_with_table_resumes_witness :
  exists encoded,
    encode_with_table "CAB" (build_encoding_table (Some abc_tree))
    = Ok encoded
    /\ decode_with_table
         (encoded ++ "0101")
         (build_reverse_table (build_encoding_table (Some abc_tree)))
       = ("CAB"
          ++ decode_with_table
               "0101"
               (build_reverse_table
                  (build_encoding_table (Some abc_tree))))%string
    /\ decode_with_table
         encoded
         (build_reverse_table (build_encoding_table (Some abc_tree)))
       = "CAB"%string.
Proof.
  apply (decode_with_table_resumes
           (build_encoding_table (Some abc_tree)) "CAB" "0101").
  - apply build_encoding_table_unique_keys.
  - apply build_encoding_table_prefix_code. reflexivity.
  - reflexivity.
Defined.

(** ** Messages of one symbol *)

Section OneSymbol.






End OneSymbol.




(** ** The filter of [Huffman.py] *)

Section Filter.

Let keep (char : string) : bool := isupper char || String.eqb char " ".

Lemma chars_concat (l : list string) :
  Forall (fun s => exists c, s = String c "") l ->
  chars (String.concat "" l) = l.
Proof.
  induction 1 as [|s l [c ->] _ IH]; [reflexivity|].
  rewrite concat_nil_cons. simpl. now rewrite IH.
Qed.

Lemma filter_all {A : Type} (p : A -> bool) (l : list A) :
  forallb p l = true -> filter p l = l.
Proof.
  induction l as [|x l IH]; [reflexivity|]. simpl.
  destruct (p x); simpl; [intros H; now rewrite IH | discriminate].
Qed.

Lemma forallb_filter {A : Type} (p : A -> bool) (l : list A) :
  forallb p (filter p l) = true.
Proof.
  apply forallb_forall. intros x Hx. now apply filter_In in Hx.
Qed.

Lemma chars_filter (input_string : string) :
  chars (filter_uppercase_and_spaces input_string)
  = filter keep (chars input_string).
Proof.
  unfold filter_uppercase_and_spaces. apply chars_concat.
  apply Forall_forall. intros s Hs. apply filter_In in Hs as [Hs _].
  exact (in_chars _ _ Hs).
Qed.

Lemma filter_fixed_point (input_string : string) :
  filter_uppercase_and_spaces input_string = input_string
  <-> forallb keep (chars input_string) = true.
Proof.
  split; intros H.
  - rewrite <- H, chars_filter. apply forallb_filter.
  - unfold filter_uppercase_and_spaces. fold keep.
    rewrite (filter_all _ _ H). apply concat_chars.
Qed.

End Filter.

(** X17 ([filter_uppercase_and_spaces] of [Huffman.py]): the filter keeps
    the uppercase letters and the spaces of its input, in order, and
    nothing else; it returns its input unchanged exactly when the input
    has no other character, and filtering a second time changes
    nothing. *)
Theorem filter_keeps_uppercase_and_spaces (input_string : string) :
  chars (filter_uppercase_and_spaces input_string)
  = filter (fun char => isupper char || String.eqb char " ")
           (chars input_string)
  /\ (filter_uppercase_and_spaces input_string = input_string
      <-> forallb (fun char => isupper char || String.eqb char " ")
                  (chars input_string) = true)
  /\ filter_uppercase_and_spaces (filter_uppercase_and_spaces input_string)
     = filter_uppercase_and_spaces input_string.
Proof.
  split; [apply chars_filter|]. split; [apply filter_fixed_point|].
  apply filter_fixed_point. rewrite chars_filter. apply forallb_filter.
Qed.

(** ** The table, the encoder and the decoder of [Greedy_Alg.py] *)

Section GreedyPipeline.

Lemma dict_get_assign_last (codes : list (string * string)) :
  forall d a,
    dict_get (assign d codes) a
    = match last_code codes a with
      | Some c => Some c
      | None => dict_get d a
      end.
Proof.
  induction codes as [|[s c] codes IH]; intros d a; [reflexivity|].
  simpl. rewrite IH, dict_get_set.
  destruct (last_code codes a); [reflexivity|].
  now destruct (String.eqb a s).
Qed.

Lemma greedy_assign_last (codes : list (string * string)) :
  forall table,
    List.length table = 27%nat ->
    forallb in_alphabet (map fst codes) = true ->
    exists table',
      greedy_assign table codes = Ok table'
      /\ List.length table' = 27%nat
      /\ forall i, (i < 27)%nat ->
           nth i table' ""%string
           = match last_code codes (greedy_symbol i) with
             | Some c => c
             | None => nth i table ""%string
             end.
Proof.
  induction codes as [|[s c] codes IH]; intros table Hlen Hall.
  - exists table. split; [reflexivity|]. now split.
  - simpl in Hall. apply andb_prop in Hall as [Hs Hall].
    apply in_alphabet_index in Hs as (j & Hj & ->).
    destruct (IH (update table j c)) as (table' & Hrun & Hlen' & Hent);
      [now rewrite length_update | exact Hall |].
    exists table'. split; [|split; [exact Hlen'|]].
    + unfold greedy_assign. simpl.
      rewrite table_index_greedy_symbol by exact Hj. simpl.
      rewrite setitem_in_range by lia. exact Hrun.
    + intros i Hi. rewrite (Hent i Hi). simpl.
      destruct (last_code codes (greedy_symbol i)); [reflexivity|].
      rewrite nth_update by lia.
      destruct (Nat.eqb_spec i j) as [->|Hij].
      * now rewrite String.eqb_refl.
      * destruct (String.eqb_spec (greedy_symbol i) (greedy_symbol j))
          as [E|E]; [|reflexivity].
        apply greedy_symbol_injective in E; [contradiction | lia | lia].
Qed.

Let encode_body (encoding_table : list string) (encoded : list string)
    (char : string) : result (list string) :=
  if String.eqb char " "
  then code <- getitem encoding_table 26 ;; Ok (encoded ++ [code])
  else index <- Greedy_Alg.letter_index char ;;
       code <- Greedy_Alg.function_getitem index ;;
       Ok (encoded ++ [code]).

(** The loop of [encode]: a space appends entry 26, any other character
    raises [TypeError]. *)
Lemma greedy_encode_loop (encoding_table : list string) (message : string) :
  (27 <= List.length encoding_table)%nat ->
  forall encoded,
    for_each (chars message) (encode_body encoding_table) encoded
    = if forallb (fun char => String.eqb char " ") (chars message)
      then Ok (encoded
               ++ map (fun _ => nth 26 encoding_table ""%string)
                      (chars message))
      else Raise TypeError.
Proof.
  intros Hlen. induction message as [|c message IH]; intros encoded.
  - simpl. now rewrite app_nil_r.
  - cbn [chars for_each forallb map]. unfold encode_body at 1.
    destruct (String.eqb (String c "") " ") eqn:E.
    + assert (Hg : getitem encoding_table 26
                   = Ok (nth 26 encoding_table ""%string))
        by (apply (getitem_in_range encoding_table 26); lia).
      rewrite Hg. cbn [bind andb]. rewrite IH.
      destruct (forallb (fun char => String.eqb char " ") (chars message));
        [|reflexivity].
      now rewrite <- app_assoc.
    + reflexivity.
Qed.

(** The loop of [decode] collects bound methods only. *)
Lemma greedy_decode_loop (huffman_root : option Node) (bits : list string) :
  forall decoded current decoded' current',
    Forall (fun x => exists n, x = Greedy_Alg.BoundMethod n) decoded ->
    for_each bits (Greedy_Alg.decode_step huffman_root) (decoded, current)
    = Ok (decoded', current') ->
    Forall (fun x => exists n, x = Greedy_Alg.BoundMethod n) decoded'.
Proof.
  induction bits as [|bit bits IH];
    intros decoded current decoded' current' Hall Hrun.
  - injection Hrun as <- _. exact Hall.
  - cbn [for_each] in Hrun.
    destruct (Greedy_Alg.decode_step huffman_root (decoded, current) bit)
      as [[d1 c1]| |] eqn:Hstep; try discriminate.
    cbn [bind] in Hrun. apply (IH _ _ _ _) in Hrun; [exact Hrun|].
    unfold Greedy_Alg.decode_step in Hstep.
    destruct (if String.eqb bit "0"
              then Greedy_Alg.call current get_left
              else if String.eqb bit "1"
                   then Greedy_Alg.call current get_right
                   else Ok current) as [cur| |]; try discriminate.
    simpl in Hstep.
    destruct (Greedy_Alg.call cur get_symbol) as [sym| |]; try discriminate.
    simpl in Hstep.
    destruct sym as [sym|], cur as [n|]; injection Hstep as <- _;
      try exact Hall.
    apply Forall_app. split; [exact Hall|].
    constructor; [now exists n | constructor].
Qed.

Lemma greedy_join_methods (items : list Greedy_Alg.object) (r : string) :
  Forall (fun x => exists n, x = Greedy_Alg.BoundMethod n) items ->
  Greedy_Alg.join items = Ok r ->
  items = [] /\ r = ""%string.
Proof.
  intros Hall Hjoin. destruct Hall as [|x items [n ->] _].
  - injection Hjoin as <-. now split.
  - discriminate.
Qed.

Lemma greedy_decode_result (encoded_string : string)
      (huffman_root : option Node) (r : string) :
  Greedy_Alg.decode encoded_string huffman_root = Ok r -> r = ""%string.
Proof.
  unfold Greedy_Alg.decode. intros H.
  destruct (for_each (chars encoded_string)
                     (Greedy_Alg.decode_step huffman_root)
                     ([], huffman_root)) as [[decoded current]| |] eqn:Hrun;
    try discriminate.
  simpl in H. apply greedy_decode_loop in Hrun; [|constructor].
  now apply (greedy_join_methods decoded r) in H.
Qed.

End GreedyPipeline.

(** X18 (the two tables): for a tree whose leaf symbols are capital
    letters and spaces, [build_encoding_table] of [Greedy_Alg.py] returns
    27 entries, and the entry of each symbol of the alphabet is the code
    that the table of [Huffman.py] has for it, or the empty string when
    that table has no such key.  So a symbol that is absent from the tree
    has the empty code in [Greedy_Alg.py], where it has no key in
    [Huffman.py]. *)
Theorem greedy_table_is_the_dict_with_defaults (root : Node) :
  forallb in_alphabet (symbols_of root) = true ->
  exists table,
    Greedy_Alg.build_encoding_table (Some root) = Ok table
    /\ List.length table = 27%nat
    /\ forall i, (i < 27)%nat ->
         greedy_code table (greedy_symbol i)
         = Ok (match dict_get (build_encoding_table (Some root))
                              (greedy_symbol i) with
               | Some c => c
               | None => ""%string
               end).
Proof.
  intros Hall.
  destruct (greedy_assign_last (leaf_codes root "") (repeat ""%string 27%nat))
    as (table & Hrun & Hlen & Hent); [reflexivity | exact Hall |].
  exists table. split; [|split; [exact Hlen|]].
  - unfold Greedy_Alg.build_encoding_table. cbn [Greedy_Alg.traverse].
    now rewrite greedy_traverse_node_assign.
  - intros i Hi. rewrite greedy_code_entry by assumption. f_equal.
    rewrite (Hent i Hi), build_encoding_table_assign, dict_get_assign_last.
    destruct (last_code (leaf_codes root "") (greedy_symbol i));
      [reflexivity|].
    cbn [dict_get]. destruct (nth_in_or_default i (repeat ""%string 27) ""%string)
      as [H|H]; [now apply repeat_spec in H | exact H].
Qed.

Lemma greedy_table_is_the_dict_with_defaults_witness :
  exists table,
    Greedy_Alg.build_encoding_table (Some greedy_hello_tree) = Ok table
    /\ List.length table = 27%nat
    /\ forall i, (i < 27)%nat ->
         greedy_code table (greedy_symbol i)
         = Ok (match dict_get (build_encoding_table (Some greedy_hello_tree))
                              (greedy_symbol i) with
               | Some c => c
               | None => ""%string
               end).
Proof.
  apply (greedy_table_is_the_dict_with_defaults greedy_hello_tree).
  reflexivity.
Defined.

(** X19 ([encode] of [Greedy_Alg.py]): with a table of at least 27
    entries, [encode] returns one copy of entry 26 per character when the
    message consists of spaces only, and raises [TypeError] as soon as the
    message has any other character, whatever the table holds for it. *)
Theorem greedy_encode_only_encodes_spaces
        (input_string : string) (encoding_table : list string) :
  (27 <= List.length encoding_table)%nat ->
  Greedy_Alg.encode input_string encoding_table
  = if forallb (fun char => String.eqb char " ") (chars input_string)
    then Ok (String.concat
               "" (map (fun _ => nth 26 encoding_table ""%string)
                       (chars input_string)))
    else Raise TypeError.
Proof.
  intros Hlen. unfold Greedy_Alg.encode.
  pose proof (greedy_encode_loop encoding_table input_string Hlen []) as H.
  cbv zeta beta in H. rewrite H.
  now destruct (forallb (fun char => String.eqb char " ")
                        (chars input_string)).
Qed.

Lemma greedy_encode_only_encodes_spaces_witness :
  Greedy_Alg.encode "A B" greedy_small_table
  = if forallb (fun char => String.eqb char " ") (chars "A B")
    then Ok (String.concat
               "" (map (fun _ => nth 26 greedy_small_table ""%string)
                       (chars "A B")))
    else Raise TypeError.
Proof.
  apply (greedy_encode_only_encodes_spaces "A B" greedy_small_table).
  simpl. lia.
Defined.

(** X20 ([decode] of [Greedy_Alg.py]): whatever the bits and the tree, a
    result that [decode] returns is the empty string; it never returns a
    decoded symbol, because it joins bound methods. *)
Theorem greedy_decode_never_returns_a_symbol
        (encoded_string : string) (huffman_root : option Node) (r : string) :
  Greedy_Alg.decode encoded_string huffman_root = Ok r -> r = ""%string.
Proof. apply greedy_decode_result. Qed.

Lemma greedy_decode_never_returns_a_symbol_witness :
  Greedy_Alg.decode "00" (Some greedy_hello_tree) = Ok ""%string
  /\ ""%string = ""%string.
Proof.
  split; [reflexivity|].
  apply (greedy_decode_never_returns_a_symbol
           "00" (Some greedy_hello_tree) ""%string).
  reflexivity.
Defined.

(** X21 (the steps of [Greedy_Alg.py]): for no non-empty message do
    counting, building, deriving the table, encoding and decoding return
    the message, so the final [assert] of the script cannot hold for a
    non-empty message. *)
Theorem greedy_round_trip_never_returns_the_message (message : string) :
  message <> ""%string -> greedy_round_trip message <> Ok message.
Proof.
  intros Hne H. unfold greedy_round_trip in H.
  destruct (Greedy_Alg.count_frequencies message) as [fs| |];
    try discriminate.
  cbn [bind] in H.
  destruct (Greedy_Alg.build_huffman_tree fs) as [root| |];
    try discriminate.
  cbn [bind] in H.
  destruct (Greedy_Alg.build_encoding_table root) as [table| |];
    try discriminate.
  cbn [bind] in H.
  destruct (Greedy_Alg.encode message table) as [encoded| |];
    try discriminate.
  cbn [bind] in H. apply greedy_decode_result in H. contradiction.
Qed.

Lemma greedy_round_trip_never_returns_the_message_witness :
  greedy_round_trip "   " <> Ok "   "%string.
Proof.
  apply (greedy_round_trip_never_returns_the_message "   "). discriminate.
Defined.

(** ** The length of an encoding *)

Lemma concat_length_bound (codes : list string) (k : nat) :
  Forall (fun code => (String.length code <= k)%nat) codes ->
  (String.length (String.concat "" codes) <= List.length codes * k)%nat.
Proof.
  induction 1 as [|code codes Hc _ IH]; [simpl; lia|].
  rewrite concat_nil_cons, string_length_append. simpl. lia.
Qed.

Lemma chars_length (message : string) :
  List.length (chars message) = String.length message.
Proof. induction message as [|c m IH]; simpl; congruence. Qed.

(** X22 (length of an encoding, [Huffman.py]): with [N] the number of
    positive counts that the tree is built from, which for the counts of
    a message is the number of its distinct symbols, an encoding with
    the table derived from the tree has at most [N - 1] bits per
    character of the message. *)
Theorem encoding_length_bound
        (message : string) (frequencies : list Z) (root : Node)
        (encoded : string) :
  huffman (create_forest frequencies) = Ok (Some root) ->
  encode_with_table message (build_encoding_table (Some root)) = Ok encoded ->
  (String.length encoded
   <= String.length message * (positive_count frequencies - 1))%nat.
Proof.
  intros Hrun Henc.
  rewrite create_forest_leaves in Hrun. apply built_tree_internal in Hrun.
  pose proof (encode_with_table_cases
                message (build_encoding_table (Some root))) as H.
  destruct (forallb (dict_contains (build_encoding_table (Some root)))
                    (chars message)).
  - destruct H as (codes & Hcodes & E). rewrite E in Henc.
    injection Henc as <-.
    rewrite <- (chars_length message), (Forall2_length Hcodes).
    apply concat_length_bound.
    clear E. induction Hcodes as [|char code l l' Hc _ IH]; constructor.
    + apply build_encoding_table_binding, leaf_codes_depth in Hc.
      simpl in Hc. lia.
    + exact IH.
  - congruence.
Qed.

Lemma encoding_length_bound_witness :
  (String.length "00100010101101110011110010101111"
   <= String.length "HELLO WORLD"
      * (positive_count
           match frequency_of_symbols "HELLO WORLD" with
           | Ok frequencies => frequencies
           | _ => []
           end - 1))%nat.
Proof.
  apply (encoding_length_bound
           "HELLO WORLD"
           match frequency_of_symbols "HELLO WORLD" with
           | Ok frequencies => frequencies
           | _ => []
           end
           hello_tree).
  - vm_compute. reflexivity.
  - vm_compute. reflexivity.
Defined.
